(** * convert_10ks_to_mds: a shallow embedding of the SEC 10-K to MDS pipeline

    Source: examples/end-to-end-examples/sec_10k_qa/convert_10ks_to_mds.py.

    Python strings are [string]s, lists are [list]s, dicts used as plain
    key/value stores are [gmap]s and dicts whose key order is observable are
    association lists.  Raised exceptions are the [Err] branch of [result]. *)

From Stdlib Require Import Ascii ZArith Lia.
From stdpp Require Import base list gmap strings.

(* ------------------------------------------------------------------ *)
(** ** Exceptions and the error monad *)

Inductive exn : Type :=
  | IndexError
  | ValueError
  | AttributeError (attr : string)
  | SystemExit (code : Z)
  | FileNotFoundError (path : string)
  | FileExistsError (path : string)
  | DownloadError (path : string).

Inductive result (A : Type) : Type :=
  | Ok (a : A)
  | Err (e : exn).
Arguments Ok {A} a.
Arguments Err {A} e.

Definition res_bind {A B} (m : result A) (k : A -> result B) : result B :=
  match m with
  | Ok a => k a
  | Err e => Err e
  end.

Notation "'let!' x ':=' m 'in' k" := (res_bind m (fun x => k))
  (at level 200, x name, right associativity).

Definition is_err {A} (r : result A) : bool :=
  match r with Ok _ => false | Err _ => true end.

(* ------------------------------------------------------------------ *)
(** ** Python string helpers *)

Definition is_bar (c : ascii) : bool := Ascii.eqb c "|"%char.

(** [s.split('|||')]: scan left to right; at each position where the
    separator starts, close the current part and skip the separator. *)
Fixpoint split_bars_aux (s cur : string) : list string :=
  match s with
  | EmptyString => [cur]
  | String a s' =>
      match s' with
      | String b (String c r) =>
          if is_bar a && is_bar b && is_bar c
          then cur :: split_bars_aux r ""
          else split_bars_aux s' (cur +:+ String a "")
      | _ => split_bars_aux s' (cur +:+ String a "")
      end
  end.

Definition split_bars (s : string) : list string := split_bars_aux s "".

(** [s.split(c)] for a one-character separator [c]. *)
Fixpoint split_char_aux (c : ascii) (s cur : string) : list string :=
  match s with
  | EmptyString => [cur]
  | String a s' =>
      if Ascii.eqb a c then cur :: split_char_aux c s' ""
      else split_char_aux c s' (cur +:+ String a "")
  end.

Definition split_char (c : ascii) (s : string) : list string :=
  split_char_aux c s "".

(* ------------------------------------------------------------------ *)
(** ** Identifier resolution: [joined_identifier], [map], [unique] *)

Record DocRecord : Type := {
  docID : string;
  tickers : list string;
  reportDate : string
}.

(** [joined_identifier]: [example['tickers'][0]] raises [IndexError] on an
    empty ticker list. *)
Definition joined_identifier (example : DocRecord) : result string :=
  match tickers example with
  | [] => Err IndexError
  | t :: _ => Ok (docID example +:+ "|||" +:+ t +:+ "|||" +:+ reportDate example)
  end.

(** [sec_filing_data.map(joined_identifier)]: an exception raised on one
    record propagates out of [map]. *)
Fixpoint map_joined (recs : list DocRecord) : result (list string) :=
  match recs with
  | [] => Ok []
  | r :: rest =>
      let! j := joined_identifier r in
      let! js := map_joined rest in
      Ok (j :: js)
  end.

(** [Dataset.unique(column)]: distinct values, in order of first occurrence. *)
Fixpoint unique_go (seen : list string) (l : list string) : list string :=
  match l with
  | [] => []
  | x :: t =>
      if bool_decide (x ∈ seen) then unique_go seen t
      else x :: unique_go (x :: seen) t
  end.

Definition unique (l : list string) : list string := unique_go [] l.

(** The resolution pass of [main] for one split: map, then unique.  On a
    split without records, [Dataset.map] returns the empty dataset as it is,
    without a [joined_identifier] column, and [unique('joined_identifier')]
    raises [ValueError] for the missing column. *)
Definition resolve_identifiers (recs : list DocRecord) : result (list string) :=
  match recs with
  | [] => Err ValueError
  | _ =>
      let! ids := map_joined recs in
      Ok (unique ids)
  end.

(* ------------------------------------------------------------------ *)
(** ** Worker sharding: [self.identifiers[worker_id::num_workers]] *)

(** [l[k::step]] for [k >= 0] and [step >= 1]: [k] counts the elements still
    to skip before the next one is taken; after a take, [step - 1] are
    skipped. *)
Fixpoint slice_from {A} (step k : nat) (l : list A) : list A :=
  match l with
  | [] => []
  | x :: t =>
      match k with
      | 0 => x :: slice_from step (step - 1) t
      | S k' => slice_from step k' t
      end
  end.

Definition slice_step {A} (l : list A) (start step : nat) : list A :=
  slice_from step start l.

(** [get_worker_info()]: [None] in the main process, else [(id, num_workers)]. *)
Definition identifiers_shard {A} (identifiers : list A)
    (worker_info : option (nat * nat)) : list A :=
  let worker_id := match worker_info with Some (i, _) => i | None => 0 end in
  let num_workers := match worker_info with Some (_, n) => n | None => 1 end in
  slice_step identifiers worker_id num_workers.

(* ------------------------------------------------------------------ *)
(** ** Paths, local files and the object store *)

Definition starts_with_slash (s : string) : bool :=
  match s with
  | String a _ => Ascii.eqb a "/"
  | EmptyString => false
  end.

Fixpoint ends_with_slash (s : string) : bool :=
  match s with
  | EmptyString => false
  | String a EmptyString => Ascii.eqb a "/"
  | String _ s' => ends_with_slash s'
  end.

(** [posixpath.join(a, b)]. *)
Definition pjoin (a b : string) : string :=
  if starts_with_slash b then b
  else if bool_decide (a = "") || ends_with_slash a then a +:+ b
  else a +:+ "/" +:+ b.

(** [os.path.join(a, b, c)]. *)
Definition pjoin3 (a b c : string) : string := pjoin (pjoin a b) c.

(** The local file system: file contents by path, and the directories made.
    [os.makedirs(p, exist_ok=True)] is recorded on [p] itself. *)
Record Fs : Type := {
  fs_files : gmap string string;
  fs_dirs : gset string
}.

(** [os.path.exists(p)]: a file, or a directory made. *)
Definition path_exists (p : string) (fs : Fs) : bool :=
  bool_decide (is_Some (fs_files fs !! p)) || bool_decide (p ∈ fs_dirs fs).

(** [os.makedirs(p, exist_ok=True)]: [exist_ok] does not cover a file at
    [p], which raises [FileExistsError]. *)
Definition makedirs (p : string) (fs : Fs) : result Fs :=
  if bool_decide (is_Some (fs_files fs !! p)) then Err (FileExistsError p)
  else Ok {| fs_files := fs_files fs; fs_dirs := {[p]} ∪ fs_dirs fs |}.

(** The value of [maybe_create_object_store_from_uri(input_folder)]: [None]
    for a local [--in_root], otherwise a store given as the objects it
    holds. *)
Abbreviation ObjectStore := (option (gmap string string)).

(** [object_store.download_object(remote, local)].  [None] has no attribute
    [download_object].  Composer's object stores default to
    [overwrite=False] and raise [FileExistsError] when [local] exists,
    before the object is looked up; an object the store lacks raises its
    not-found error, [DownloadError] here. *)
Definition download_object (store : ObjectStore) (remote local : string)
    (fs : Fs) : result Fs :=
  match store with
  | None => Err (AttributeError "download_object")
  | Some objs =>
      if path_exists local fs then Err (FileExistsError local)
      else
        match objs !! remote with
        | Some c => Ok {| fs_files := <[local := c]> (fs_files fs); fs_dirs := fs_dirs fs |}
        | None => Err (DownloadError remote)
        end
  end.

(** [open(p).read()]. *)
Definition read_file (p : string) (fs : Fs) : result string :=
  match fs_files fs !! p with
  | Some c => Ok c
  | None => Err (FileNotFoundError p)
  end.

Record TextSample : Type := { text : string }.

(* ------------------------------------------------------------------ *)
(** ** [DownloadingIterable] *)

Record DownloadingIterable : Type := {
  identifiers : list (list string);
  input_folder_prefix : string;
  output_folder : string;
  object_store : ObjectStore
}.

Definition mk_downloading_iterable (ids : list string) (prefix out : string)
    (store : ObjectStore) : DownloadingIterable :=
  {| identifiers := map split_bars ids;
     input_folder_prefix := prefix;
     output_folder := out;
     object_store := store |}.

(** One iteration of the loop of [__iter__]: the tuple pattern
    [(_, ticker, report_date)] raises [ValueError] unless the identifier has
    exactly three parts. *)
Definition fetch_one (input_prefix out : string) (store : ObjectStore)
    (ident : list string) (fs : Fs) : result (Fs * TextSample) :=
  match ident with
  | [_; ticker; report_date] =>
      let! fs1 := makedirs (pjoin out ticker) fs in
      let year := hd "" (split_char "-" report_date) in
      let! fs2 := download_object store
                    (pjoin3 input_prefix ticker ("sec_" +:+ year +:+ "_txt.txt"))
                    (pjoin3 out ticker ("sec_" +:+ year +:+ ".txt")) fs1 in
      let! txt := read_file (pjoin3 out ticker ("sec_" +:+ year +:+ ".txt")) fs2 in
      Ok (fs2, {| text := txt |})
  | _ => Err ValueError
  end.

(** The samples yielded, the exception that ended the loop if any, and the
    final file system. *)
Fixpoint fetch_all (input_prefix out : string) (store : ObjectStore)
    (ids : list (list string)) (fs : Fs) : list TextSample * option exn * Fs :=
  match ids with
  | [] => ([], None, fs)
  | i :: rest =>
      match fetch_one input_prefix out store i fs with
      | Err e => ([], Some e, fs)
      | Ok (fs', smp) =>
          let '(ys, e, fs'') := fetch_all input_prefix out store rest fs' in
          (smp :: ys, e, fs'')
      end
  end.

Definition di_iter (it : DownloadingIterable) (worker_info : option (nat * nat))
    (fs : Fs) : list TextSample * option exn * Fs :=
  fetch_all (input_folder_prefix it) (output_folder it) (object_store it)
    (identifiers_shard (identifiers it) worker_info) fs.

(* ------------------------------------------------------------------ *)
(** ** [parse_args] *)

(** The options of a command line that argparse accepts, already converted
    by their [type=]; [None] for an option not given.  An unknown option, or
    a value that [type=int] rejects, makes argparse exit with status 2 before
    any of the checks below; such a command line has no [Argv]. *)
Record Argv : Type := {
  arg_max_workers : option Z;
  arg_remote : option string;
  arg_out_root : option string;
  arg_in_root : option string;
  arg_dataset_subset : option string;
  arg_compression : option string;
  arg_concat_tokens : option Z;
  arg_tokenizer : option string;
  arg_bos_text : option string;
  arg_eos_text : option string;
  arg_no_wrap : bool
}.

(** The [Namespace] built by [parser.parse_args()].  [splits] is [None] when
    the namespace has no attribute [splits]; no option of the parser
    declares one. *)
Record Namespace : Type := {
  max_workers : Z;
  remote : option string;
  out_root : string;
  in_root : string;
  dataset_subset : string;
  compression : string;
  concat_tokens : option Z;
  tokenizer : option string;
  bos_text : option string;
  eos_text : option string;
  no_wrap : bool;
  splits : option (list string)
}.

(** [parser.parse_args()]: the two [required=True] options missing make
    argparse exit with status 2; the others take their [default=]. *)
Definition parser_parse_args (a : Argv) : result Namespace :=
  match arg_out_root a, arg_in_root a with
  | Some o, Some i =>
      Ok {| max_workers := default 64%Z (arg_max_workers a);
            remote := arg_remote a;
            out_root := o;
            in_root := i;
            dataset_subset := default "small_full" (arg_dataset_subset a);
            compression := default "zstd" (arg_compression a);
            concat_tokens := arg_concat_tokens a;
            tokenizer := arg_tokenizer a;
            bos_text := arg_bos_text a;
            eos_text := arg_eos_text a;
            no_wrap := arg_no_wrap a;
            splits := None |}
  | _, _ => Err (SystemExit 2)
  end.

(** The directories on disk that the process can list, with the names
    [os.listdir] returns.  A directory it cannot list, on which [os.listdir]
    raises [PermissionError], has no view here. *)
Abbreviation DirView := (gmap string (list string)).

Definition isdir (dv : DirView) (p : string) : bool := bool_decide (is_Some (dv !! p)).
Definition listdir (dv : DirView) (p : string) : list string := default [] (dv !! p).

(** [os.path.isdir(out_root) and len(set(os.listdir(out_root)) & set(parsed.splits)) > 0]:
    the right operand is evaluated only when [out_root] is a directory, and
    reading the missing attribute [parsed.splits] raises [AttributeError]. *)
Definition check_out_root (dv : DirView) (parsed : Namespace) : result unit :=
  if isdir dv (out_root parsed) then
    match splits parsed with
    | None => Err (AttributeError "splits")
    | Some sp =>
        if existsb (fun e => bool_decide (e ∈ sp)) (listdir dv (out_root parsed))
        then Err ValueError else Ok tt
    end
  else Ok tt.

(** [concat_tokens is not None and isinstance(concat_tokens, int) and
    tokenizer is None] leads to [parser.error], which exits with status 2;
    with [type=int] a given [concat_tokens] is always an [int]. *)
Definition check_concat (parsed : Namespace) : result unit :=
  match concat_tokens parsed, tokenizer parsed with
  | Some _, None => Err (SystemExit 2)
  | _, _ => Ok tt
  end.

(** [if parsed.bos_text is None: parsed.bos_text = ''], same for [eos_text]. *)
Definition fill_bos_eos (parsed : Namespace) : Namespace :=
  {| max_workers := max_workers parsed;
     remote := remote parsed;
     out_root := out_root parsed;
     in_root := in_root parsed;
     dataset_subset := dataset_subset parsed;
     compression := compression parsed;
     concat_tokens := concat_tokens parsed;
     tokenizer := tokenizer parsed;
     bos_text := Some (default "" (bos_text parsed));
     eos_text := Some (default "" (eos_text parsed));
     no_wrap := no_wrap parsed;
     splits := splits parsed |}.

Definition parse_args (a : Argv) (dv : DirView) : result Namespace :=
  let! parsed := parser_parse_args a in
  let! _ := check_out_root dv parsed in
  let! _ := check_concat parsed in
  Ok (fill_bos_eos parsed).

(* ------------------------------------------------------------------ *)
(** ** [generate_samples] *)

Section GenerateSamples.
Context {V : Type}.

(** A batch [{key: [v0, v1, ...]}], keys in dict order. *)
Abbreviation Batch := (list (string * list V)).
Abbreviation Sample := (list (string * V)).

Inductive gen_stop : Type :=
  | GReturn
  | GRaise (e : exn).

Inductive loop_status : Type :=
  | LCont (n_samples : Z)
  | LStop (s : gen_stop).

(** [{k: v[idx] for k, v in batch.items()}]. *)
Fixpoint row_at (batch : Batch) (idx : nat) : result Sample :=
  match batch with
  | [] => Ok []
  | (k, v) :: rest =>
      match v !! idx with
      | Some x => let! r := row_at rest idx in Ok ((k, x) :: r)
      | None => Err IndexError
      end
  end.

(** The inner [for idx in range(current_bs)] loop. *)
Fixpoint rows_loop (truncate_num_samples : option Z) (batch : Batch)
    (idxs : list nat) (n_samples : Z) : list Sample * loop_status :=
  match idxs with
  | [] => ([], LCont n_samples)
  | idx :: rest =>
      if match truncate_num_samples with
         | Some t => Z.eqb n_samples t
         | None => false
         end
      then ([], LStop GReturn)
      else match row_at batch idx with
           | Err e => ([], LStop (GRaise e))
           | Ok s =>
               let '(ys, st) := rows_loop truncate_num_samples batch rest (n_samples + 1) in
               (s :: ys, st)
           end
  end.

(** The outer [for batch in loader] loop; [batch[keys[0]]] raises
    [IndexError] on a batch without keys. *)
Fixpoint batches_loop (truncate_num_samples : option Z) (loader : list Batch)
    (n_samples : Z) : list Sample * gen_stop :=
  match loader with
  | [] => ([], GReturn)
  | batch :: more =>
      match batch with
      | [] => ([], GRaise IndexError)
      | (_, col0) :: _ =>
          let '(ys, st) := rows_loop truncate_num_samples batch
                             (seq 0 (length col0)) n_samples in
          match st with
          | LCont n' =>
              let '(zs, st') := batches_loop truncate_num_samples more n' in
              (ys ++ zs, st')
          | LStop s => (ys, s)
          end
      end
  end.

(** The samples yielded and how the generator ended. *)
Definition generate_samples (loader : list Batch)
    (truncate_num_samples : option Z) : list Sample * gen_stop :=
  batches_loop truncate_num_samples loader 0.

End GenerateSamples.

(* ------------------------------------------------------------------ *)
(** ** The token packer *)

Section Packer.

(** The tokenizer, an external collaborator: text to token ids. *)
Variable tokenize : string -> list Z.

(** Modelled from the spec: [ConcatTokensDataset] (imported from
    [llmfoundry.data], its source is not part of this repository), §4.3:
    the per-document sequence [[bos_tokens?] + tokenized_text + [eos_tokens?]],
    where an empty bos/eos text inserts no tokens. *)
Definition doc_tokens (bos eos txt : string) : list Z :=
  (if bool_decide (bos = "") then [] else tokenize bos) ++ tokenize txt ++
  (if bool_decide (eos = "") then [] else tokenize eos).

(** Modelled from the spec: wrap mode of [ConcatTokensDataset], §4.3:
    while the buffer holds at least [N] tokens, emit its first [N] tokens and
    drop them from its front.  Each round removes [N >= 1] tokens, so [fuel]
    set to the buffer length never cuts the loop short (for [N = 0] the loop
    of the spec would not terminate). *)
Fixpoint drain (N fuel : nat) (buf : list Z) : list (list Z) * list Z :=
  match fuel with
  | 0 => ([], buf)
  | S f =>
      if bool_decide (N <= length buf) then
        let '(bs, r) := drain N f (drop N buf) in (take N buf :: bs, r)
      else ([], buf)
  end.

(** Modelled from the spec: the running buffer is carried across documents;
    the remainder left at the end of the stream is not emitted. *)
Fixpoint pack_wrap (N : nat) (buf : list Z) (docs : list (list Z)) : list (list Z) :=
  match docs with
  | [] => []
  | d :: ds =>
      let buf' := buf ++ d in
      let '(bs, r) := drain N (length buf') buf' in
      bs ++ pack_wrap N r ds
  end.

(** Modelled from the spec: the blocks emitted in wrap mode for a stream of
    document texts. *)
Definition concat_tokens_wrap (N : nat) (bos eos : string) (texts : list string)
    : list (list Z) :=
  pack_wrap N [] (map (doc_tokens bos eos) texts).

End Packer.

(* ------------------------------------------------------------------ *)
(** ** [main]: the loop over the three splits *)

Section Main.
Context {V : Type}.

(** [datasets.load_dataset('JanosAudran/financial-reports-sec',
    dataset_subset, split=split)]: the records of a split. *)
Variable load_split : string -> list DocRecord.

(** The [tempfile.TemporaryDirectory()] opened for a split. *)
Variable tmp_dir : string -> string.

(** Iterating [build_dataloader(ConcatTokensDataset(hf_dataset=downloading_iter,
    ...), batch_size=512)]: the batches it delivers, and the exception that
    ended the iteration if any. *)
Variable run_loader : DownloadingIterable -> list (list (string * list V)) * option exn.





End Main.

(* ------------------------------------------------------------------ *)
(** ** Auxiliary definitions used in the statements and their instances *)

(** [s] starts with the separator ['|||']. *)
Definition starts_sep (s : string) : bool :=
  match s with
  | String a (String b (String c _)) => is_bar a && is_bar b && is_bar c
  | _ => false
  end.

Fixpoint has_sep (s : string) : bool :=
  match s with
  | EmptyString => false
  | String _ s' => starts_sep s || has_sep s'
  end.

Fixpoint ends_bar (s : string) : bool :=
  match s with
  | EmptyString => false
  | String a EmptyString => is_bar a
  | String _ s' => ends_bar s'
  end.

(** A field contains the separator ['|'||'|'||'|'] as a substring. *)
Definition contains_sep (s : string) : Prop := exists x y, s = x +:+ "|||" +:+ y.

(** A field ends with the character ['|']. *)
Definition ends_with_bar (s : string) : Prop := exists x, s = x +:+ "|".

Definition rec_bar_docid : DocRecord :=
  {| docID := "a|"; tickers := ["AAPL"]; reportDate := "2020-01-01" |}.

(** The identifier [joined_identifier] builds for a record with a ticker. *)
Definition identifier_from_first_ticker (r : DocRecord) : string :=
  docID r +:+ "|||" +:+ hd "" (tickers r) +:+ "|||" +:+ reportDate r.

Definition recs_one_untickered : list DocRecord :=
  [ {| docID := "d1"; tickers := ["AAPL"]; reportDate := "2020-01-01" |};
    {| docID := "d2"; tickers := []; reportDate := "2020-02-01" |};
    {| docID := "d3"; tickers := ["MSFT"]; reportDate := "2020-03-01" |} ].

Definition argv_ex (out : string) : Argv :=
  {| arg_max_workers := None; arg_remote := None;
     arg_out_root := Some out; arg_in_root := Some "s3://bucket/filings";
     arg_dataset_subset := None; arg_compression := None;
     arg_concat_tokens := Some 2048%Z; arg_tokenizer := Some "EleutherAI/gpt-neox-20b";
     arg_bos_text := None; arg_eos_text := None; arg_no_wrap := false |}.



Definition store_ex : gmap string string :=
  {[ "filings/train/AAPL/sec_2020_txt.txt" := "10-K text" ]}.

(** A tokenizer for concrete runs: one token per character, its code. *)
Fixpoint tok_chars (s : string) : list Z :=
  match s with
  | EmptyString => []
  | String c s' => Z.of_nat (nat_of_ascii c) :: tok_chars s'
  end.

(** The remote object the fetcher downloads for a three-part identifier. *)
Definition remote_path (prefix : string) (ident : list string) : string :=
  match ident with
  | [_; ticker; report_date] =>
      pjoin3 prefix ticker ("sec_" +:+ hd "" (split_char "-" report_date) +:+ "_txt.txt")
  | _ => ""
  end.

(** The staging directory and the local file the fetcher uses for a
    three-part identifier. *)
Definition local_dir (out : string) (ident : list string) : string :=
  match ident with
  | [_; ticker; _] => pjoin out ticker
  | _ => ""
  end.

Definition local_path (out : string) (ident : list string) : string :=
  match ident with
  | [_; ticker; report_date] =>
      pjoin3 out ticker ("sec_" +:+ hd "" (split_char "-" report_date) +:+ ".txt")
  | _ => ""
  end.

(** The text of the remote object of an identifier, if there is one. *)
Definition fetched_text (prefix : string) (store : ObjectStore)
    (ident : list string) : option string :=
  match store, ident with
  | Some objs, [_; _; _] => objs !! remote_path prefix ident
  | _, _ => None
  end.

Definition expected_sample (prefix : string) (store : ObjectStore)
    (ident : list string) : TextSample :=
  {| text := default "" (fetched_text prefix store ident) |}.

Section SampleSpec.
Context {V : Type} `{!Inhabited V}.

(** A batch as the loader is meant to give it: at least one key, and every
    column as long as the first. *)
Definition wf_batch (b : list (string * list V)) : Prop :=
  match b with
  | [] => False
  | (_, col0) :: _ => Forall (fun kv => length kv.2 = length col0) b
  end.

(** The sample at index [idx]: the batch's keys, in order, with their
    values at [idx]. *)
Definition sample_at (b : list (string * list V)) (idx : nat) : list (string * V) :=
  map (fun kv => (kv.1, kv.2 !!! idx)) b.

(** The samples of a batch, index by index. *)
Definition batch_samples (b : list (string * list V)) : list (list (string * V)) :=
  match b with
  | [] => []
  | (_, col0) :: _ => map (sample_at b) (seq 0 (length col0))
  end.

(** All samples of the loader, batch by batch. *)
Definition all_samples (loader : list (list (string * list V))) : list (list (string * V)) :=
  concat (map batch_samples loader).

(** A batch that [generate_samples] reads without an [IndexError]: it has a
    key, and no column is shorter than the first. *)
Definition batch_ok (b : list (string * list V)) : Prop :=
  match b with
  | [] => False
  | (_, col0) :: _ => Forall (fun kv => length col0 <= length kv.2) b
  end.

End SampleSpec.

Definition loader_ex : list (list (string * list Z)) :=
  [ [("tokens", [1; 2; 3]%Z); ("ids", [10; 20; 30]%Z)];
    [("tokens", [4; 5]%Z); ("ids", [40; 50]%Z)] ].


(* ================================================================== *)
(** * Properties *)

(* ------------------------------------------------------------------ *)
(** ** Worker sharding *)

Lemma slice_from_cons_0 {A} (step : nat) (x : A) (t : list A) :
  slice_from step 0 (x :: t) = x :: slice_from step (step - 1) t.
Proof. reflexivity. Qed.

Lemma slice_from_cons_S {A} (step k : nat) (x : A) (t : list A) :
  slice_from step (S k) (x :: t) = slice_from step k t.
Proof. reflexivity. Qed.

(** The [W] strides [l[0::W]], ..., [l[W-1::W]] concatenated are a
    rearrangement of [l]. *)
Lemma strides_perm {A} (W' : nat) (l : list A) :
  concat (map (fun w => slice_from (S W') w l) (seq 0 (S W'))) ≡ₚ l.
Proof.
  induction l as [|x t IH].
  - rewrite seq_S. rewrite map_app, concat_app. simpl.
    induction (seq 0 W') as [|w ws IHws]; simpl; [done|]. by destruct w.
  - cbn [seq map concat]. rewrite slice_from_cons_0.
    replace (S W' - 1) with W' by lia.
    rewrite <- seq_shift, map_map.
    erewrite map_ext; [|intros w; apply slice_from_cons_S].
    rewrite seq_S, map_app, concat_app in IH. simpl in IH.
    rewrite app_nil_r in IH.
    simpl. constructor. rewrite Permutation_app_comm. exact IH.
Qed.

(** Claim C1. For every identifier list and every worker count [W >= 1], the
    shards [identifiers[w::W]] of the workers [w = 0 .. W-1] together hold
    every identifier exactly once: their concatenation is a permutation of
    the list, so nothing is omitted and nothing is given to two workers. *)
Theorem shards_partition_identifiers {A} (l : list A) (W : nat) :
  1 <= W ->
  concat (map (fun w => identifiers_shard l (Some (w, W))) (seq 0 W)) ≡ₚ l.
Proof.
  intros HW. destruct W as [|W']; [lia|].
  unfold identifiers_shard, slice_step. simpl (match Some _ with _ => _ end).
  apply strides_perm.
Qed.

Lemma shards_partition_identifiers_witness :
  1 <= 3 /\
  concat (map (fun w => identifiers_shard [10; 11; 12; 13; 14] (Some (w, 3))) (seq 0 3))
    ≡ₚ [10; 11; 12; 13; 14].
Proof.
  split; [lia|]. apply (shards_partition_identifiers [10; 11; 12; 13; 14] 3). lia.
Defined.

(* ------------------------------------------------------------------ *)
(** ** Splitting joined identifiers on ['|||'] *)

Lemma str_app_cons (a : ascii) (s t : string) : String a s +:+ t = String a (s +:+ t).
Proof. reflexivity. Qed.

Lemma str_app_nil_l (s : string) : "" +:+ s = s.
Proof. reflexivity. Qed.

Lemma str_app_nil_r (s : string) : s +:+ "" = s.
Proof. induction s as [|a s IH]; [done|]. by rewrite str_app_cons, IH. Qed.

Lemma str_app_assoc (x y z : string) : (x +:+ y) +:+ z = x +:+ y +:+ z.
Proof. induction x as [|a x IH]; [done|]. by rewrite !str_app_cons, IH. Qed.

Lemma str_length_app (x y : string) :
  String.length (x +:+ y) = String.length x + String.length y.
Proof. induction x as [|a x IH]; [done|]. rewrite str_app_cons. simpl. by rewrite IH. Qed.

Lemma is_bar_true (a : ascii) : is_bar a = true -> a = "|"%char.
Proof. unfold is_bar. by intros ?%Ascii.eqb_eq. Qed.

Lemma string_len_ind (P : string -> Prop) :
  (forall s, (forall t, String.length t < String.length s -> P t) -> P s) ->
  forall s, P s.
Proof.
  intros H.
  assert (Hn : forall n s, String.length s < n -> P s).
  { induction n as [|n IH]; intros s Hs; [lia|].
    apply H. intros t Ht. apply IH. lia. }
  intros s. apply (Hn (S (String.length s))). lia.
Qed.

Lemma starts_sep_true (s : string) :
  starts_sep s = true -> exists r, s = "|||" +:+ r.
Proof.
  destruct s as [|a [|b [|c r]]]; simpl; try done.
  intros H. apply andb_prop in H as [H Hc]. apply andb_prop in H as [Ha Hb].
  apply is_bar_true in Ha, Hb, Hc. subst. by exists r.
Qed.

Lemma has_sep_spec (s : string) : has_sep s = true <-> contains_sep s.
Proof.
  unfold contains_sep. split.
  - induction s as [|a s IH]; cbn [has_sep]; [done|]. intros H.
    apply orb_prop in H as [H|H].
    + apply starts_sep_true in H as [r Hr]. by exists "", r.
    + destruct (IH H) as (x & y & ->). by exists (String a x), y.
  - intros (x & y & ->). induction x as [|a x IH].
    + destruct y; reflexivity.
    + rewrite str_app_cons. cbn [has_sep]. by rewrite IH, orb_true_r.
Qed.

Lemma ends_bar_app_ne (x y : string) : y <> "" -> ends_bar (x +:+ y) = ends_bar y.
Proof.
  intros Hy. induction x as [|a x IH]; [done|].
  rewrite str_app_cons. simpl. rewrite IH.
  destruct x; [destruct y; [done|reflexivity]|].
  rewrite str_app_cons. reflexivity.
Qed.

Lemma ends_bar_spec (s : string) : ends_bar s = true <-> ends_with_bar s.
Proof.
  unfold ends_with_bar. split.
  - induction s as [|a s IH]; [done|].
    destruct s as [|b s].
    + simpl. intros ->%is_bar_true. by exists "".
    + intros H. destruct (IH H) as [x Hx]. exists (String a x).
      rewrite str_app_cons. by rewrite <- Hx.
  - intros [x ->]. rewrite ends_bar_app_ne by done. reflexivity.
Qed.

Lemma starts_sep_first (a : ascii) (s : string) :
  is_bar a = false -> starts_sep (String a s) = false.
Proof. intros H. destruct s as [|b [|c r]]; simpl; try rewrite H; done. Qed.

Lemma starts_sep_second (a b : ascii) (s : string) :
  is_bar b = false -> starts_sep (String a (String b s)) = false.
Proof. intros H. destruct s; simpl; [done|]. rewrite H. by destruct (is_bar a). Qed.

Lemma split_step_false (a : ascii) (s cur : string) :
  starts_sep (String a s) = false ->
  split_bars_aux (String a s) cur = split_bars_aux s (cur +:+ String a "").
Proof. intros H. destruct s as [|b [|c r]]; simpl in *; try reflexivity. by rewrite H. Qed.

Lemma split_step_sep (r cur : string) :
  split_bars_aux ("|||" +:+ r) cur = cur :: split_bars_aux r "".
Proof. reflexivity. Qed.

Lemma split_len_cur (s cur cur' : string) :
  length (split_bars_aux s cur) = length (split_bars_aux s cur').
Proof.
  revert cur cur'. induction s as [s IH] using string_len_ind. intros cur cur'.
  destruct s as [|a s]; [done|].
  destruct (starts_sep (String a s)) eqn:E.
  - apply starts_sep_true in E as [r Hr]. rewrite Hr, !split_step_sep. done.
  - rewrite !split_step_false by done. apply IH. simpl. lia.
Qed.

(** Adding a character in front never loses a part. *)
Lemma split_len_mono (c : ascii) (s cur cur' : string) :
  length (split_bars_aux s cur') <= length (split_bars_aux (String c s) cur).
Proof.
  revert c cur cur'. induction s as [s IH] using string_len_ind. intros c cur cur'.
  destruct (starts_sep (String c s)) eqn:E.
  - apply starts_sep_true in E as [r Hr]. injection Hr as -> Hs. subst s.
    change (String "|" ("||" +:+ r)) with ("|||" +:+ r). rewrite split_step_sep.
    change ("||" +:+ r) with (String "|" (String "|" r)).
    destruct r as [|e r']; [simpl; lia|].
    destruct (is_bar e) eqn:He.
    + apply is_bar_true in He as ->.
      change (String "|" (String "|" (String "|" r'))) with ("|||" +:+ r').
      rewrite split_step_sep. cbn [length]. apply le_n_S, IH. simpl. lia.
    + rewrite split_step_false by (simpl; by rewrite He).
      rewrite split_step_false by (by apply starts_sep_second).
      rewrite (split_len_cur _ _ ""). cbn [length]. lia.
  - rewrite split_step_false by done. apply Nat.eq_le_incl, split_len_cur.
Qed.

Lemma split_len_pos (s cur : string) : 1 <= length (split_bars_aux s cur).
Proof.
  revert cur. induction s as [|a s IH]; intros cur; [simpl; lia|].
  etrans; [apply (IH cur)|]. apply split_len_mono.
Qed.

(** Splitting [u ++ '|||' ++ v] gives at least the parts of [u] and the
    parts of [v]. *)
Lemma split_len_superadd (u v cur : string) :
  length (split_bars_aux u cur) + length (split_bars_aux v "")
  <= length (split_bars_aux (u +:+ "|||" +:+ v) cur).
Proof.
  revert cur. induction u as [u IH] using string_len_ind. intros cur.
  destruct u as [|a u'].
  - rewrite str_app_nil_l, split_step_sep. simpl. lia.
  - destruct (starts_sep (String a u')) eqn:E.
    + apply starts_sep_true in E as [r Hr]. rewrite Hr, str_app_assoc, !split_step_sep.
      cbn [length]. apply le_n_S, IH. rewrite Hr, str_length_app. simpl. lia.
    + rewrite split_step_false by done. rewrite str_app_cons.
      destruct u' as [|b [|c r]].
      * destruct (is_bar a) eqn:Ha.
        -- apply is_bar_true in Ha as ->. rewrite str_app_nil_l.
           change (String "|" ("|||" +:+ v)) with ("|||" +:+ String "|" v).
           rewrite split_step_sep.
           generalize (split_len_mono "|" v "" "").
           generalize (split_bars_aux (String "|" v) ""). intros L HL. simpl. lia.
        -- rewrite (split_step_false a) by (by apply starts_sep_first).
           rewrite str_app_nil_l, split_step_sep. simpl. lia.
      * destruct (is_bar a && is_bar b) eqn:Hab.
        -- apply andb_prop in Hab as [Ha Hb].
           apply is_bar_true in Ha as ->. apply is_bar_true in Hb as ->.
           rewrite str_app_cons, str_app_nil_l.
           change (String "|" (String "|" ("|||" +:+ v))) with ("|||" +:+ String "|" (String "|" v)).
           rewrite split_step_sep.
           pose proof (split_len_mono "|" v "" "") as H1.
           generalize (split_len_mono "|" (String "|" v) "" "").
           generalize dependent (split_bars_aux (String "|" v) "").
           generalize (split_bars_aux (String "|" (String "|" v)) "").
           intros L2 L1 HL1 HL2. simpl. lia.
        -- rewrite (split_step_false a)
             by (rewrite str_app_cons, str_app_nil_l; simpl; by rewrite Hab).
           apply IH. simpl. lia.
      * assert (Hs : starts_sep (String a (String b (String c r) +:+ "|||" +:+ v)) = false)
          by (rewrite !str_app_cons; exact E).
        rewrite (split_step_false a) by exact Hs.
        apply IH. simpl. lia.
Qed.

Lemma split_no_sep (r cur : string) :
  has_sep r = false -> split_bars_aux r cur = [cur +:+ r].
Proof.
  revert cur. induction r as [|x r IH]; intros cur H.
  - by rewrite str_app_nil_r.
  - cbn [has_sep] in H. apply orb_false_iff in H as [Hs Hr].
    rewrite split_step_false by done. rewrite IH by done.
    by rewrite str_app_assoc.
Qed.

(** A field free of ['|||'] and not ending in ['|'] is closed exactly by the
    separator that follows it. *)
Lemma split_join_field (a rest cur : string) :
  has_sep a = false -> ends_bar a = false ->
  split_bars_aux (a +:+ "|||" +:+ rest) cur = (cur +:+ a) :: split_bars_aux rest "".
Proof.
  revert cur. induction a as [|x a' IH]; intros cur Hsep Hend.
  - by rewrite str_app_nil_l, split_step_sep, str_app_nil_r.
  - cbn [has_sep] in Hsep. apply orb_false_iff in Hsep as [Hs Ha'].
    assert (He' : ends_bar a' = false) by (destruct a' as [|y s]; [done|exact Hend]).
    rewrite str_app_cons.
    assert (Hs' : starts_sep (String x (a' +:+ "|||" +:+ rest)) = false).
    { destruct a' as [|y [|z w]].
      - by apply starts_sep_first.
      - rewrite str_app_cons. by apply starts_sep_second.
      - rewrite !str_app_cons. exact Hs. }
    rewrite (split_step_false x) by exact Hs'. rewrite IH by done.
    by rewrite str_app_assoc.
Qed.

(** A field ending in ['|'] is closed before its end: the separator is found
    straddling it. *)
Lemma split_first_short (a rest cur : string) :
  ends_bar a = true ->
  String.length (hd "" (split_bars_aux (a +:+ "|||" +:+ rest) cur))
  < String.length cur + String.length a.
Proof.
  revert cur. induction a as [|x a' IH]; intros cur Hend; [done|].
  rewrite str_app_cons.
  destruct (starts_sep (String x (a' +:+ "|||" +:+ rest))) eqn:E.
  - apply starts_sep_true in E as [r Hr]. rewrite Hr, split_step_sep. simpl. lia.
  - rewrite (split_step_false x) by exact E. destruct a' as [|y s].
    + simpl in Hend. apply is_bar_true in Hend as ->.
      rewrite str_app_nil_l in E. discriminate E.
    + eapply Nat.lt_le_trans; [apply IH; exact Hend|].
      rewrite str_length_app. simpl. lia.
Qed.

Lemma not_contains_sep (s : string) : ~ contains_sep s <-> has_sep s = false.
Proof. rewrite <- has_sep_spec. destruct (has_sep s); intuition congruence. Qed.

Lemma not_ends_with_bar (s : string) : ~ ends_with_bar s <-> ends_bar s = false.
Proof. rewrite <- ends_bar_spec. destruct (ends_bar s); intuition congruence. Qed.

(** A field containing ['|||'] makes the split of the joined identifier
    have at least four parts. *)
Lemma split_join_four (d t r : string) :
  contains_sep d \/ contains_sep t \/ contains_sep r ->
  4 <= length (split_bars (d +:+ "|||" +:+ t +:+ "|||" +:+ r)).
Proof.
  unfold split_bars. intros [(x & y & ->) | [(x & y & ->) | (x & y & ->)]].
  - rewrite !str_app_assoc.
    pose proof (split_len_superadd x (y +:+ "|||" +:+ t +:+ "|||" +:+ r) "").
    pose proof (split_len_superadd y (t +:+ "|||" +:+ r) "").
    pose proof (split_len_superadd t r "").
    pose proof (split_len_pos x ""). pose proof (split_len_pos y "").
    pose proof (split_len_pos t ""). pose proof (split_len_pos r "").
    lia.
  - rewrite !str_app_assoc.
    pose proof (split_len_superadd d (x +:+ "|||" +:+ y +:+ "|||" +:+ r) "").
    pose proof (split_len_superadd x (y +:+ "|||" +:+ r) "").
    pose proof (split_len_superadd y r "").
    pose proof (split_len_pos d ""). pose proof (split_len_pos x "").
    pose proof (split_len_pos y ""). pose proof (split_len_pos r "").
    lia.
  - pose proof (split_len_superadd d (t +:+ "|||" +:+ x +:+ "|||" +:+ y) "").
    pose proof (split_len_superadd t (x +:+ "|||" +:+ y) "").
    pose proof (split_len_superadd x y "").
    pose proof (split_len_pos d ""). pose proof (split_len_pos t "").
    pose proof (split_len_pos x ""). pose proof (split_len_pos y "").
    lia.
Qed.

Lemma fetch_one_not_three (prefix out : string) (store : ObjectStore)
    (ident : list string) (fs : Fs) :
  length ident <> 3 -> fetch_one prefix out store ident fs = Err ValueError.
Proof. intros H. destruct ident as [|? [|? [|? [|? ?]]]]; simpl in *; done || lia. Qed.

(** Claim C9 (as amended). For a record whose first ticker is [t], splitting
    its joined identifier on ['|||'] gives back exactly [(docID, t,
    reportDate)] if and only if none of the three fields contains ['|||']
    and neither [docID] nor [t] ends with ['|']; when a field contains
    ['|||'], the split has more than three parts and the fetcher's
    three-way destructuring of it raises [ValueError]. *)
Theorem joined_identifier_split (rec : DocRecord) (t : string) (ts : list string) :
  tickers rec = t :: ts ->
  exists j, joined_identifier rec = Ok j /\
    (split_bars j = [docID rec; t; reportDate rec] <->
       ~ contains_sep (docID rec) /\ ~ contains_sep t /\ ~ contains_sep (reportDate rec) /\
       ~ ends_with_bar (docID rec) /\ ~ ends_with_bar t) /\
    (contains_sep (docID rec) \/ contains_sep t \/ contains_sep (reportDate rec) ->
       3 < length (split_bars j) /\
       forall prefix out store fs, fetch_one prefix out store (split_bars j) fs = Err ValueError).
Proof.
  intros Ht. unfold joined_identifier. rewrite Ht.
  eexists; split; [reflexivity|].
  set (d := docID rec). set (r := reportDate rec).
  split; [split|].
  - intros Hsplit.
    assert (Hnc : ~ (contains_sep d \/ contains_sep t \/ contains_sep r)).
    { intros Hc. apply split_join_four in Hc. rewrite Hsplit in Hc. simpl in Hc. lia. }
    assert (Hd : has_sep d = false) by (apply not_contains_sep; tauto).
    assert (Htt : has_sep t = false) by (apply not_contains_sep; tauto).
    assert (Hr : has_sep r = false) by (apply not_contains_sep; tauto).
    assert (Hed : ends_bar d = false).
    { destruct (ends_bar d) eqn:E; [|done].
      pose proof (split_first_short d (t +:+ "|||" +:+ r) "" E) as Hlt.
      unfold split_bars in Hsplit. rewrite Hsplit in Hlt. simpl in Hlt. lia. }
    assert (Het : ends_bar t = false).
    { destruct (ends_bar t) eqn:E; [|done].
      pose proof (split_first_short t r "" E) as Hlt.
      unfold split_bars in Hsplit. rewrite split_join_field in Hsplit by done.
      injection Hsplit as Hsplit. rewrite Hsplit in Hlt. simpl in Hlt. lia. }
    rewrite !not_contains_sep, !not_ends_with_bar. tauto.
  - rewrite !not_contains_sep, !not_ends_with_bar. intros (Hd & Htt & Hr & Hed & Het).
    unfold split_bars. rewrite !split_join_field by done.
    by rewrite split_no_sep, !str_app_nil_l.
  - intros Hc. pose proof (split_join_four d t r Hc) as H4. split; [lia|].
    intros prefix out store fs. apply fetch_one_not_three. lia.
Qed.

Lemma joined_identifier_split_witness :
  exists j, joined_identifier rec_bar_docid = Ok j /\
    (split_bars j = [docID rec_bar_docid; "AAPL"; reportDate rec_bar_docid] <->
       ~ contains_sep (docID rec_bar_docid) /\ ~ contains_sep "AAPL" /\
       ~ contains_sep (reportDate rec_bar_docid) /\
       ~ ends_with_bar (docID rec_bar_docid) /\ ~ ends_with_bar "AAPL") /\
    (contains_sep (docID rec_bar_docid) \/ contains_sep "AAPL" \/
     contains_sep (reportDate rec_bar_docid) ->
       3 < length (split_bars j) /\
       forall prefix out store fs, fetch_one prefix out store (split_bars j) fs = Err ValueError).
Proof. apply (joined_identifier_split rec_bar_docid "AAPL" []). reflexivity. Defined.

(** Counterexample to claim C9 as stated: no field of this record contains
    ['|||'], yet splitting its joined identifier does not give back the
    triple, because [docID = "a|"] ends with ['|']. *)
Lemma joined_identifier_split_counterexample :
  ~ contains_sep (docID rec_bar_docid) /\ ~ contains_sep "AAPL" /\
  ~ contains_sep (reportDate rec_bar_docid) /\
  exists j, joined_identifier rec_bar_docid = Ok j /\
    split_bars j = ["a"; "|AAPL"; "2020-01-01"] /\
    split_bars j <> [docID rec_bar_docid; "AAPL"; reportDate rec_bar_docid].
Proof.
  rewrite !not_contains_sep. split; [reflexivity|]. split; [reflexivity|].
  split; [reflexivity|].
  eexists; split; [reflexivity|]. split; [reflexivity|]. discriminate.
Qed.

(* ------------------------------------------------------------------ *)
(** ** Identifier resolution and empty ticker lists *)

Lemma map_joined_empty_ticker (recs : list DocRecord) :
  Exists (fun r => tickers r = []) recs -> map_joined recs = Err IndexError.
Proof.
  induction recs as [|r rest IH]; intros Hex; [inversion Hex|].
  simpl. unfold joined_identifier.
  destruct (tickers r) as [|t ts] eqn:Ht; [done|].
  apply Exists_cons in Hex as [Hr|Hrest]; [congruence|].
  simpl. by rewrite IH.
Qed.

Lemma map_joined_all_tickers (recs : list DocRecord) :
  Forall (fun r => tickers r <> []) recs ->
  map_joined recs = Ok (map identifier_from_first_ticker recs).
Proof.
  induction recs as [|r rest IH]; intros Hall; [done|].
  apply Forall_cons in Hall as [Hr Hrest].
  simpl. unfold joined_identifier, identifier_from_first_ticker.
  destruct (tickers r) as [|t ts]; [done|]. simpl. by rewrite IH.
Qed.

Lemma resolve_identifiers_untickered (recs : list DocRecord) :
  Exists (fun r => tickers r = []) recs -> resolve_identifiers recs = Err IndexError.
Proof.
  intros Hex. unfold resolve_identifiers.
  destruct recs as [|r rest]; [inversion Hex|].
  by rewrite map_joined_empty_ticker.
Qed.

Lemma resolve_identifiers_all_tickers (recs : list DocRecord) :
  recs <> [] -> Forall (fun r => tickers r <> []) recs ->
  resolve_identifiers recs = Ok (unique (map identifier_from_first_ticker recs)).
Proof.
  intros Hne Hall. unfold resolve_identifiers.
  destruct recs as [|r rest]; [done|].
  by rewrite map_joined_all_tickers.
Qed.

(** Claim C4 (as amended). A record with an empty ticker list makes
    [joined_identifier] raise [IndexError], which ends the whole resolution
    pass: no identifier list is produced at all.  When the split has records
    and every record has a ticker, the pass yields the distinct identifiers
    built from the first tickers, in order of first occurrence.  A split
    without records makes [unique] raise [ValueError]. *)
Theorem resolve_identifiers_empty_tickers (recs : list DocRecord) :
  (Exists (fun r => tickers r = []) recs ->
     resolve_identifiers recs = Err IndexError) /\
  (recs <> [] -> Forall (fun r => tickers r <> []) recs ->
     resolve_identifiers recs = Ok (unique (map identifier_from_first_ticker recs))) /\
  resolve_identifiers [] = Err ValueError.
Proof.
  split; [|split].
  - apply resolve_identifiers_untickered.
  - apply resolve_identifiers_all_tickers.
  - reflexivity.
Qed.

(** Counterexample to claim C4 as stated: the second record has no ticker,
    and instead of skipping it the pass fails, so the identifiers of the
    first and third records are not produced either. *)
Lemma resolve_identifiers_counterexample :
  resolve_identifiers recs_one_untickered = Err IndexError /\
  forall ids, resolve_identifiers recs_one_untickered <> Ok ids.
Proof. split; [reflexivity|]. intros ids. discriminate. Qed.

(* ------------------------------------------------------------------ *)
(** ** [parse_args] *)

Lemma parse_args_ok_inv (a : Argv) (dv : DirView) (ns : Namespace) :
  parse_args a dv = Ok ns ->
  exists parsed, parser_parse_args a = Ok parsed /\
    check_out_root dv parsed = Ok tt /\ check_concat parsed = Ok tt /\
    ns = fill_bos_eos parsed.
Proof.
  unfold parse_args. destruct (parser_parse_args a) as [parsed|]; [|done]. cbn [res_bind].
  destruct (check_out_root dv parsed) as [[]|] eqn:Ho; [|done]. cbn [res_bind].
  destruct (check_concat parsed) as [[]|] eqn:Hc; [|done]. cbn [res_bind].
  intros [= <-]. eauto 10.
Qed.

Lemma parser_parse_args_fields (a : Argv) (parsed : Namespace) :
  parser_parse_args a = Ok parsed ->
  out_root parsed = default "" (arg_out_root a) /\ splits parsed = None /\
  concat_tokens parsed = arg_concat_tokens a /\ tokenizer parsed = arg_tokenizer a /\
  bos_text parsed = arg_bos_text a /\ eos_text parsed = arg_eos_text a.
Proof.
  unfold parser_parse_args.
  destruct (arg_out_root a), (arg_in_root a); intros; simplify_eq; done.
Qed.

(** [out_root] decides [check_out_root] alone: an existing directory always
    raises [AttributeError], whatever it holds; a path that is not a
    directory passes. *)
Lemma check_out_root_parsed (a : Argv) (dv : DirView) (parsed : Namespace) :
  parser_parse_args a = Ok parsed ->
  check_out_root dv parsed =
    if isdir dv (out_root parsed) then Err (AttributeError "splits") else Ok tt.
Proof.
  intros Hp. apply parser_parse_args_fields in Hp as (_ & Hs & _).
  unfold check_out_root. by rewrite Hs.
Qed.

(** Claim C5. An [out_root] directory holding an entry named after a split
    ([train]) does not get the [ValueError] that reports the overlap: reading
    [parsed.splits] raises [AttributeError] first, and it does so for an
    existing directory without such an entry as well; an [out_root] that
    does not exist passes the check and parsing succeeds. *)
Theorem parse_args_out_root_collision :
  parse_args (argv_ex "out") {[ "out" := ["train"; "notes.txt"] ]} = Err (AttributeError "splits") /\
  parse_args (argv_ex "out") {[ "out" := [] ]} = Err (AttributeError "splits") /\
  is_err (parse_args (argv_ex "out") ∅) = false.
Proof. split; [reflexivity|]. split; reflexivity. Qed.

(** Claim C7. When [--concat_tokens] is given and [--tokenizer] is not,
    [parse_args] fails with an exception (the [parser.error] exit, or an
    earlier one) and returns no namespace; when both are given, the
    concat/tokenizer check passes. *)
Theorem concat_tokens_needs_tokenizer :
  (forall (a : Argv) (dv : DirView) (n : Z),
     arg_concat_tokens a = Some n -> arg_tokenizer a = None ->
     is_err (parse_args a dv) = true) /\
  (forall (a : Argv) (dv : DirView) (n : Z) (o i : string),
     arg_concat_tokens a = Some n -> arg_tokenizer a = None ->
     arg_out_root a = Some o -> arg_in_root a = Some i -> isdir dv o = false ->
     parse_args a dv = Err (SystemExit 2)) /\
  (forall (parsed : Namespace) (n : Z) (tk : string),
     concat_tokens parsed = Some n -> tokenizer parsed = Some tk ->
     check_concat parsed = Ok tt).
Proof.
  split; [|split].
  - intros a dv n Hc Ht. destruct (parse_args a dv) as [ns|] eqn:Hp; [|done].
    apply parse_args_ok_inv in Hp as (parsed & Hp & _ & Hcc & _).
    apply parser_parse_args_fields in Hp as (_ & _ & Hc' & Ht' & _).
    unfold check_concat in Hcc. rewrite Hc', Ht', Hc, Ht in Hcc. discriminate.
  - intros a dv n o i Hc Ht Ho Hi Hd. unfold parse_args.
    destruct (parser_parse_args a) as [parsed|] eqn:Hp;
      [|unfold parser_parse_args in Hp; rewrite Ho, Hi in Hp; discriminate].
    cbn [res_bind]. rewrite (check_out_root_parsed a dv parsed Hp).
    pose proof (parser_parse_args_fields a parsed Hp) as (Hor & _ & Hc' & Ht' & _).
    rewrite Hor, Ho. simpl. rewrite Hd. cbn [res_bind].
    unfold check_concat. by rewrite Hc', Ht', Hc, Ht.
  - intros parsed n tk Hc Ht. unfold check_concat. by rewrite Hc, Ht.
Qed.

(** Claim C8. After a successful [parse_args], [bos_text] and [eos_text]
    hold the supplied strings, or [''] when the option was not given; with
    neither given, the per-document token sequence the packer builds is the
    tokenized text alone, with no boundary tokens. *)
Theorem parse_args_bos_eos_default (a : Argv) (dv : DirView) (ns : Namespace) :
  parse_args a dv = Ok ns ->
  bos_text ns = Some (default "" (arg_bos_text a)) /\
  eos_text ns = Some (default "" (arg_eos_text a)) /\
  (arg_bos_text a = None -> arg_eos_text a = None ->
   forall (tokenize : string -> list Z) (txt : string),
     doc_tokens tokenize (default "" (bos_text ns)) (default "" (eos_text ns)) txt
     = tokenize txt).
Proof.
  intros Hp. apply parse_args_ok_inv in Hp as (parsed & Hp & _ & _ & ->).
  apply parser_parse_args_fields in Hp as (_ & _ & _ & _ & Hb & He).
  simpl. rewrite Hb, He. split; [done|]. split; [done|].
  intros Hb0 He0 tokenize txt. rewrite Hb0, He0. simpl.
  unfold doc_tokens. rewrite !bool_decide_eq_true_2 by done.
  by rewrite app_nil_r.
Qed.

Lemma parse_args_bos_eos_default_witness :
  exists ns, parse_args (argv_ex "out") ∅ = Ok ns /\
  bos_text ns = Some (default "" (arg_bos_text (argv_ex "out"))) /\
  eos_text ns = Some (default "" (arg_eos_text (argv_ex "out"))) /\
  (arg_bos_text (argv_ex "out") = None -> arg_eos_text (argv_ex "out") = None ->
   forall (tokenize : string -> list Z) (txt : string),
     doc_tokens tokenize (default "" (bos_text ns)) (default "" (eos_text ns)) txt
     = tokenize txt).
Proof.
  eexists. split; [reflexivity|].
  apply (parse_args_bos_eos_default (argv_ex "out") ∅). reflexivity.
Defined.

(* ------------------------------------------------------------------ *)
(** ** Fetching one identifier: paths and the yielded record *)







(** [os.path.join(a, b)] with a non-empty relative [b] is longer than [a]. *)
Lemma pjoin_ne_self (a b : string) :
  b <> "" -> starts_with_slash b = false -> pjoin a b <> a.
Proof.
  intros Hb Hs. unfold pjoin. rewrite Hs. intros H.
  apply (f_equal String.length) in H.
  destruct (bool_decide (a = "") || ends_with_slash a); rewrite ?str_length_app in H;
    destruct b; simpl in H; done || lia.
Qed.

Lemma local_path_ne_dir (out d t r : string) :
  local_path out [d; t; r] <> local_dir out [d; t; r].
Proof. apply pjoin_ne_self; [discriminate|reflexivity]. Qed.


Lemma path_exists_mono (p q : string) (fs : Fs) :
  path_exists p fs = true ->
  path_exists p {| fs_files := fs_files fs; fs_dirs := {[q]} ∪ fs_dirs fs |} = true.
Proof.
  unfold path_exists. cbn [fs_files fs_dirs]. rewrite !orb_true_iff, !bool_decide_eq_true.
  set_solver.
Qed.

Lemma path_exists_makedirs_ne (p q : string) (fs : Fs) :
  p <> q ->
  path_exists p {| fs_files := fs_files fs; fs_dirs := {[q]} ∪ fs_dirs fs |} =
  path_exists p fs.
Proof.
  intros Hne. unfold path_exists. cbn [fs_files fs_dirs]. f_equal.
  apply bool_decide_ext. set_solver.
Qed.


(** [fetch_one] on a three-part identifier, step by step: the directory,
    the store, the local file, the object. *)
Lemma fetch_one_three (prefix out : string) (store : ObjectStore)
    (d t r : string) (fs : Fs) :
  fetch_one prefix out store [d; t; r] fs =
    if bool_decide (is_Some (fs_files fs !! local_dir out [d; t; r]))
    then Err (FileExistsError (local_dir out [d; t; r]))
    else
      match store with
      | None => Err (AttributeError "download_object")
      | Some objs =>
          if path_exists (local_path out [d; t; r]) fs
          then Err (FileExistsError (local_path out [d; t; r]))
          else
            match objs !! remote_path prefix [d; t; r] with
            | Some c =>
                Ok ({| fs_files := <[local_path out [d; t; r] := c]> (fs_files fs);
                       fs_dirs := {[local_dir out [d; t; r]]} ∪ fs_dirs fs |},
                    {| text := c |})
            | None => Err (DownloadError (remote_path prefix [d; t; r]))
            end
      end.
Proof.
  unfold fetch_one. fold (local_dir out [d; t; r]).
  fold (local_path out [d; t; r]). fold (remote_path prefix [d; t; r]).
  unfold makedirs. destruct (bool_decide _); [done|]. cbn [res_bind].
  unfold download_object. destruct store as [objs|]; [|done].
  rewrite path_exists_makedirs_ne by apply local_path_ne_dir.
  destruct (path_exists _ fs); [done|].
  destruct (objs !! _) as [c|]; [|done]. cbn [res_bind].
  unfold read_file. cbn [fs_files]. by rewrite lookup_insert_eq.
Qed.





(* ------------------------------------------------------------------ *)
(** ** Wrap-mode packing *)

Section PackerProofs.
Variable tokenize : string -> list Z.

Lemma drain_short (N fuel : nat) (buf : list Z) :
  length buf < N -> drain N fuel buf = ([], buf).
Proof.
  intros H. destruct fuel; [done|]. simpl.
  rewrite bool_decide_eq_false_2 by lia. reflexivity.
Qed.

Lemma drain_spec (N fuel : nat) (buf : list Z) :
  1 <= N -> length buf <= fuel ->
  Forall (fun b => length b = N) (drain N fuel buf).1 /\
  concat (drain N fuel buf).1 ++ (drain N fuel buf).2 = buf /\
  length (drain N fuel buf).2 < N.
Proof.
  intros HN. revert buf. induction fuel as [|f IH]; intros buf Hf.
  - destruct buf; simpl in *; [|lia]. split; [constructor|split; [reflexivity|lia]].
  - simpl. case_bool_decide as HNb.
    + destruct (IH (drop N buf)) as (Hall & Hcat & Hrem);
        [rewrite length_drop; lia|].
      destruct (drain N f (drop N buf)) as [bs r]. simpl in *.
      repeat split.
      * constructor; [rewrite length_take; lia|done].
      * by rewrite <- app_assoc, Hcat, take_drop.
      * done.
    + simpl. split; [constructor|split; [reflexivity|lia]].
Qed.

Lemma pack_wrap_spec (N : nat) (buf : list Z) (docs : list (list Z)) :
  1 <= N -> length buf < N ->
  Forall (fun b => length b = N) (pack_wrap N buf docs) /\
  exists rem, concat (pack_wrap N buf docs) ++ rem = buf ++ concat docs /\ length rem < N.
Proof.
  intros HN. revert buf. induction docs as [|d ds IH]; intros buf Hbuf.
  - simpl. split; [constructor|]. exists buf. by rewrite !app_nil_r.
  - simpl. destruct (drain_spec N (length (buf ++ d)) (buf ++ d) HN (le_n _))
      as (Hall & Hcat & Hrem).
    destruct (drain N (length (buf ++ d)) (buf ++ d)) as [bs r]. simpl in *.
    destruct (IH r Hrem) as (Hall' & rem & Hcat' & Hrem').
    split; [by apply Forall_app|].
    exists rem. split; [|done].
    rewrite concat_app, <- app_assoc, Hcat', app_assoc, Hcat.
    by rewrite app_assoc.
Qed.

Lemma concat_length_uniform (N : nat) (bs : list (list Z)) :
  Forall (fun b => length b = N) bs -> length (concat bs) = N * length bs.
Proof.
  induction 1 as [|b bs Hb _ IH]; simpl; [lia|].
  rewrite length_app, Hb, IH. lia.
Qed.

(** Claim C3. In wrap mode with a block size [N >= 1], every block emitted
    has exactly [N] tokens; the blocks, concatenated in order, followed by a
    remainder shorter than [N] that is never emitted, are the token stream of
    all documents; hence there are exactly [len(stream) / N] blocks. *)
Theorem wrap_blocks_full (N : nat) (bos eos : string) (texts : list string) :
  1 <= N ->
  let stream := concat (map (doc_tokens tokenize bos eos) texts) in
  let blocks := concat_tokens_wrap tokenize N bos eos texts in
  Forall (fun b => length b = N) blocks /\
  (exists rem, concat blocks ++ rem = stream /\ length rem < N) /\
  length blocks = length stream / N.
Proof.
  intros HN stream blocks.
  destruct (pack_wrap_spec N [] (map (doc_tokens tokenize bos eos) texts) HN)
    as (Hall & rem & Hcat & Hrem); [simpl; lia|].
  fold blocks in Hall, Hcat. rewrite app_nil_l in Hcat. fold stream in Hcat.
  split; [done|]. split; [by exists rem|].
  apply (Nat.div_unique _ _ _ (length rem)); [done|].
  rewrite <- Hcat, length_app, (concat_length_uniform N _ Hall). reflexivity.
Qed.

Lemma drain_one (N fuel : nat) (buf : list Z) :
  1 <= fuel -> N <= length buf -> length buf < N + N ->
  drain N fuel buf = ([take N buf], drop N buf).
Proof.
  intros Hf H1 H2. destruct fuel as [|f]; [lia|]. simpl.
  rewrite bool_decide_eq_true_2 by lia.
  rewrite drain_short by (rewrite length_drop; lia). reflexivity.
Qed.

Lemma pack_wrap_cons (N : nat) (buf d : list Z) (ds : list (list Z)) :
  pack_wrap N buf (d :: ds) =
    (drain N (length (buf ++ d)) (buf ++ d)).1 ++
    pack_wrap N (drain N (length (buf ++ d)) (buf ++ d)).2 ds.
Proof. simpl. by destruct (drain N (length (buf ++ d)) (buf ++ d)). Qed.

(** Claim C2 (as amended). In wrap mode with [N = 10] and no bos/eos text,
    three documents of 5, 7 and 4 tokens give exactly one block: the first
    10 tokens of the stream (all of document 1 and the first 5 tokens of
    document 2).  The remaining 6 tokens (2 of document 2 and the 4 of
    document 3) stay in the buffer, shorter than [N], and are dropped at the
    end of the split. *)
Theorem wrap_scenario_5_7_4 (t1 t2 t3 : string) :
  length (tokenize t1) = 5 -> length (tokenize t2) = 7 -> length (tokenize t3) = 4 ->
  concat_tokens_wrap tokenize 10 "" "" [t1; t2; t3] = [tokenize t1 ++ take 5 (tokenize t2)].
Proof.
  intros H1 H2 H3. unfold concat_tokens_wrap. simpl map.
  unfold doc_tokens. rewrite !bool_decide_eq_true_2 by done. rewrite !app_nil_l, !app_nil_r.
  rewrite pack_wrap_cons, app_nil_l, drain_short by lia. cbn [fst snd]. rewrite app_nil_l.
  rewrite pack_wrap_cons.
  rewrite drain_one by (rewrite length_app; lia).
  cbn [fst snd]. rewrite pack_wrap_cons.
  rewrite drain_short by (rewrite length_app, length_drop, length_app; lia).
  cbn [fst snd pack_wrap]. rewrite !app_nil_r. cbn [app].
  rewrite firstn_app, firstn_all2 by lia. by rewrite H1.
Qed.

End PackerProofs.

Lemma wrap_blocks_full_witness :
  1 <= 4 /\
  Forall (fun b => length b = 4) (concat_tokens_wrap tok_chars 4 "<s>" "" ["abcde"; "fg"]) /\
  (exists rem, concat (concat_tokens_wrap tok_chars 4 "<s>" "" ["abcde"; "fg"]) ++ rem
                 = concat (map (doc_tokens tok_chars "<s>" "") ["abcde"; "fg"]) /\
               length rem < 4) /\
  length (concat_tokens_wrap tok_chars 4 "<s>" "" ["abcde"; "fg"])
    = length (concat (map (doc_tokens tok_chars "<s>" "") ["abcde"; "fg"])) / 4.
Proof. split; [lia|]. apply (wrap_blocks_full tok_chars 4 "<s>" "" ["abcde"; "fg"]). lia. Defined.

Lemma wrap_scenario_5_7_4_witness :
  length (tok_chars "abcde") = 5 /\ length (tok_chars "fghijkl") = 7 /\
  length (tok_chars "mnop") = 4 /\
  concat_tokens_wrap tok_chars 10 "" "" ["abcde"; "fghijkl"; "mnop"]
    = [tok_chars "abcde" ++ take 5 (tok_chars "fghijkl")].
Proof.
  split; [reflexivity|]. split; [reflexivity|]. split; [reflexivity|].
  apply (wrap_scenario_5_7_4 tok_chars); reflexivity.
Defined.

(** Counterexample to claim C2 as stated: the documents ["abcde"],
    ["fghijkl"] and ["mnop"] (5, 7 and 4 tokens) give one block, not two;
    the 6-token block the claim lists is shorter than [N = 10]. *)
Lemma wrap_scenario_counterexample :
  concat_tokens_wrap tok_chars 10 "" "" ["abcde"; "fghijkl"; "mnop"]
    = [tok_chars "abcdefghij"] /\
  length (concat_tokens_wrap tok_chars 10 "" "" ["abcde"; "fghijkl"; "mnop"]) <> 2.
Proof. split; [reflexivity|]. vm_compute. discriminate. Qed.

(* ------------------------------------------------------------------ *)
(** ** [generate_samples] *)

Section GenerateSamplesProofs.
Context {V : Type} `{!Inhabited V}.

Lemma row_at_ok (b : list (string * list V)) (idx : nat) :
  Forall (fun kv => idx < length kv.2) b -> row_at b idx = Ok (sample_at b idx).
Proof.
  induction b as [|[k v] rest IH]; intros Hall; [done|].
  apply Forall_cons in Hall as [Hv Hrest]. simpl in Hv.
  simpl. rewrite (list_lookup_lookup_total_lt v idx Hv). cbn [res_bind].
  by rewrite IH.
Qed.

Lemma rows_loop_none (b : list (string * list V)) (idxs : list nat) (n : Z) :
  Forall (fun idx => Forall (fun kv => idx < length kv.2) b) idxs ->
  rows_loop None b idxs n = (map (sample_at b) idxs, LCont (n + Z.of_nat (length idxs))).
Proof.
  revert n. induction idxs as [|idx rest IH]; intros n Hall; simpl.
  - do 2 f_equal. lia.
  - apply Forall_cons in Hall as [Hidx Hrest].
    rewrite row_at_ok by done. rewrite IH by done. cbn [fst snd]. f_equal. f_equal. lia.
Qed.

Lemma rows_loop_some (b : list (string * list V)) (idxs : list nat) (n t : Z) :
  (n <= t)%Z ->
  Forall (fun idx => Forall (fun kv => idx < length kv.2) b) idxs ->
  rows_loop (Some t) b idxs n =
    (take (Z.to_nat (t - n)) (map (sample_at b) idxs),
     if Z.leb (Z.of_nat (length idxs)) (t - n)
     then LCont (n + Z.of_nat (length idxs)) else LStop GReturn).
Proof.
  revert n. induction idxs as [|idx rest IH]; intros n Hnt Hall; simpl.
  - rewrite take_nil. change (Z.of_nat 0) with 0%Z.
    destruct (Z.leb_spec 0 (t - n)); [|lia]. do 2 f_equal. lia.
  - apply Forall_cons in Hall as [Hidx Hrest].
    destruct (Z.eqb_spec n t) as [->|Hne].
    + rewrite Z.sub_diag. cbn [Z.to_nat take].
      destruct (Z.leb_spec (Z.of_nat (S (length rest))) 0); [lia|done].
    + rewrite row_at_ok by done. rewrite IH by (done || lia). cbn [fst snd].
      replace (Z.to_nat (t - n)) with (S (Z.to_nat (t - (n + 1)))) by lia.
      cbn [take]. f_equal.
      destruct (Z.leb_spec (Z.of_nat (length rest)) (t - (n + 1)));
        destruct (Z.leb_spec (Z.of_nat (S (length rest))) (t - n)); try lia; [|done].
      f_equal. lia.
Qed.

Lemma wf_batch_in_range (b : list (string * list V)) (k0 : string) (col0 : list V) (rest : list (string * list V)) :
  b = (k0, col0) :: rest -> wf_batch b ->
  Forall (fun idx => Forall (fun kv => idx < length kv.2) b) (seq 0 (length col0)).
Proof.
  intros -> Hwf. apply Forall_forall. intros idx Hidx%list_elem_of_In.
  apply in_seq in Hidx. simpl in Hwf.
  eapply Forall_impl; [exact Hwf|]. intros kv Hkv. simpl in Hkv. lia.
Qed.

Lemma batches_loop_none (loader : list (list (string * list V))) (n : Z) :
  Forall wf_batch loader ->
  batches_loop None loader n = (all_samples loader, GReturn).
Proof.
  revert n. induction loader as [|b more IH]; intros n Hall; [done|].
  apply Forall_cons in Hall as [Hb Hmore].
  destruct b as [|[k0 col0] rest] eqn:Eb; [done|]. rewrite <- Eb in *.
  simpl. rewrite Eb. rewrite <- Eb.
  rewrite rows_loop_none by (eapply wf_batch_in_range; eauto).
  rewrite IH by done. unfold all_samples. simpl. by rewrite Eb.
Qed.

Lemma batches_loop_some (loader : list (list (string * list V))) (n t : Z) :
  (n <= t)%Z -> Forall wf_batch loader ->
  batches_loop (Some t) loader n = (take (Z.to_nat (t - n)) (all_samples loader), GReturn).
Proof.
  revert n. induction loader as [|b more IH]; intros n Hnt Hall.
  { unfold all_samples. simpl. by rewrite take_nil. }
  apply Forall_cons in Hall as [Hb Hmore].
  destruct b as [|[k0 col0] rest] eqn:Eb; [done|]. rewrite <- Eb in *.
  simpl. rewrite Eb. rewrite <- Eb.
  rewrite rows_loop_some by (done || (eapply wf_batch_in_range; eauto)).
  assert (Hbs : batch_samples b = map (sample_at b) (seq 0 (length col0)))
    by (rewrite Eb; reflexivity).
  unfold all_samples. cbn [map concat]. rewrite Hbs. fold (all_samples more).
  rewrite length_seq, take_app, length_map, length_seq.
  destruct (Z.leb_spec (Z.of_nat (length col0)) (t - n)) as [Hle|Hgt].
  - rewrite IH by (done || lia).
    rewrite take_ge by (rewrite length_map, length_seq; lia).
    do 4 f_equal. lia.
  - replace (Z.to_nat (t - n) - length col0) with 0 by lia.
    by rewrite take_0, app_nil_r.
Qed.

End GenerateSamplesProofs.

(* ------------------------------------------------------------------ *)
(** ** Further properties of the pipeline *)

(** *** Identifier resolution *)

Lemma unique_go_elem (seen l : list string) (x : string) :
  x ∈ unique_go seen l <-> x ∈ l /\ x ∉ seen.
Proof.
  revert seen. induction l as [|y t IH]; intros seen; simpl.
  - set_solver.
  - case_bool_decide as Hy.
    + rewrite IH. split; [set_solver|]. intros [Hx Hn].
      apply elem_of_cons in Hx as [->|Hx]; [done|by split].
    + rewrite !elem_of_cons, IH, elem_of_cons. split.
      * intros [->|[Hx Hn]]; [split; [by left|done]|].
        split; [by right|]. intros Hs. apply Hn. by right.
      * intros [[->|Hx] Hn]; [by left|].
        destruct (decide (x = y)) as [->|Hne]; [by left|right].
        split; [done|]. intros [->|Hs]; [done|]. by apply Hn.
Qed.

Lemma unique_go_nodup (seen l : list string) : NoDup (unique_go seen l).
Proof.
  revert seen. induction l as [|y t IH]; intros seen; simpl; [constructor|].
  case_bool_decide; [done|]. constructor; [|done].
  rewrite unique_go_elem. set_solver.
Qed.

Lemma unique_go_sublist (seen l : list string) : unique_go seen l `sublist_of` l.
Proof.
  revert seen. induction l as [|y t IH]; intros seen; simpl; [constructor|].
  case_bool_decide; [by apply sublist_cons|]. by apply sublist_skip.
Qed.

Lemma map_joined_ok_inv (recs : list DocRecord) (js : list string) :
  map_joined recs = Ok js ->
  Forall (fun r => tickers r <> []) recs /\ js = map identifier_from_first_ticker recs.
Proof.
  revert js. induction recs as [|r rest IH]; intros js Hm; simpl in Hm.
  - injection Hm as <-. done.
  - unfold joined_identifier, identifier_from_first_ticker in *.
    destruct (tickers r) as [|t ts] eqn:Ht; [discriminate|]. cbn [res_bind] in Hm.
    destruct (map_joined rest) as [js'|e] eqn:Hr; [|discriminate].
    cbn [res_bind] in Hm. injection Hm as <-.
    destruct (IH js' eq_refl) as [Hall ->]. split.
    + constructor; [by rewrite Ht|done].
    + simpl. by rewrite Ht.
Qed.

(** [unique] keeps the order of first occurrence: of two identifiers it
    returns, the earlier one occurs in the input before any occurrence of
    the later one. *)
Lemma unique_go_order (seen l : list string) (i j : nat) (x y : string) :
  i < j -> unique_go seen l !! i = Some x -> unique_go seen l !! j = Some y ->
  exists p, l !! p = Some x /\ y ∉ take p l.
Proof.
  revert seen i j. induction l as [|a t IH]; intros seen i j Hij Hx Hy; [done|].
  cbn [unique_go] in Hx, Hy. case_bool_decide as Ha.
  - destruct (IH seen i j Hij Hx Hy) as (p & Hp & Hn).
    exists (S p). split; [done|]. cbn [take]. rewrite elem_of_cons.
    intros [->|Hin]; [|done].
    apply list_elem_of_lookup_2, unique_go_elem in Hy as [_ Hy]. done.
  - destruct i as [|i'].
    + injection Hx as <-. exists 0. split; [done|]. cbn [take]. apply not_elem_of_nil.
    + destruct j as [|j']; [lia|]. cbn [lookup list_lookup] in Hx, Hy.
      destruct (IH (a :: seen) i' j' ltac:(lia) Hx Hy) as (p & Hp & Hn).
      exists (S p). split; [done|]. cbn [take]. rewrite elem_of_cons.
      intros [->|Hin]; [|done].
      apply list_elem_of_lookup_2, unique_go_elem in Hy as [_ Hy]. set_solver.
Qed.

Lemma resolve_identifiers_ok_facts (recs : list DocRecord) (ids : list string) :
  resolve_identifiers recs = Ok ids ->
  recs <> [] /\ Forall (fun r => tickers r <> []) recs /\
  NoDup ids /\ ids `sublist_of` map identifier_from_first_ticker recs /\
  (forall i j x y, i < j -> ids !! i = Some x -> ids !! j = Some y ->
     exists p, map identifier_from_first_ticker recs !! p = Some x /\
               y ∉ take p (map identifier_from_first_ticker recs)) /\
  (forall x, x ∈ ids <-> exists r, r ∈ recs /\ x = identifier_from_first_ticker r).
Proof.
  unfold resolve_identifiers. destruct recs as [|r0 rest0] eqn:Hrecs; [discriminate|].
  rewrite <- Hrecs.
  destruct (map_joined recs) as [js|e] eqn:Hm; [|discriminate].
  cbn [res_bind]. intros [= <-].
  destruct (map_joined_ok_inv recs js Hm) as [Hall ->].
  split; [by rewrite Hrecs|]. split; [done|].
  split; [apply unique_go_nodup|]. split; [apply unique_go_sublist|].
  split; [intros i j x y; apply unique_go_order|].
  intros x. unfold unique. rewrite unique_go_elem.
  change (map identifier_from_first_ticker recs) with (identifier_from_first_ticker <$> recs).
  rewrite list_elem_of_fmap. set_solver.
Qed.

(** The resolution pass of [main] succeeds only on a split that has records
    and whose records all have a ticker; its identifiers are then pairwise
    distinct, they are exactly the identifiers
    [docID|||tickers[0]|||reportDate] of the records, and they come in the
    order of first occurrence: of two identifiers, the earlier occurs among
    the records' identifiers before any occurrence of the later. *)
Lemma resolve_identifiers_distinct (recs : list DocRecord) (ids : list string) :
  resolve_identifiers recs = Ok ids ->
  recs <> [] /\ Forall (fun r => tickers r <> []) recs /\
  NoDup ids /\ ids `sublist_of` map identifier_from_first_ticker recs /\
  (forall i j x y, i < j -> ids !! i = Some x -> ids !! j = Some y ->
     exists p, map identifier_from_first_ticker recs !! p = Some x /\
               y ∉ take p (map identifier_from_first_ticker recs)) /\
  (forall x, x ∈ ids <-> exists r, r ∈ recs /\ x = identifier_from_first_ticker r).
Proof. apply resolve_identifiers_ok_facts. Qed.

Lemma resolve_identifiers_distinct_witness :
  resolve_identifiers
    [ {| docID := "d1"; tickers := ["AAPL"]; reportDate := "2020-01-01" |};
      {| docID := "d1"; tickers := ["AAPL"; "APL"]; reportDate := "2020-01-01" |} ]
    = Ok ["d1|||AAPL|||2020-01-01"] /\
  NoDup ["d1|||AAPL|||2020-01-01"].
Proof.
  assert (H : resolve_identifiers
    [ {| docID := "d1"; tickers := ["AAPL"]; reportDate := "2020-01-01" |};
      {| docID := "d1"; tickers := ["AAPL"; "APL"]; reportDate := "2020-01-01" |} ]
    = Ok ["d1|||AAPL|||2020-01-01"]) by reflexivity.
  split; [exact H|].
  exact (proj1 (proj2 (proj2 (resolve_identifiers_distinct _ _ H)))).
Defined.

(** *** Worker sharding *)

Lemma slice_from_lookup {A} (W k : nat) (l : list A) (j : nat) :
  k < W -> slice_from W k l !! j = l !! (k + j * W).
Proof.
  revert k j. induction l as [|x t IH]; intros k j Hk; [done|].
  destruct k as [|k']; simpl.
  - destruct j as [|j']; [done|]. simpl. rewrite IH by lia.
    replace (W + j' * W) with (S (W - 1 + j' * W)) by lia. done.
  - rewrite IH by lia. done.
Qed.

Lemma slice_from_1_0 {A} (l : list A) : slice_from 1 0 l = l.
Proof. induction l as [|x t IH]; [done|]. simpl. by rewrite IH. Qed.

(** Worker [w] of [W] takes the identifiers at positions [w], [w + W],
    [w + 2W], ...: the [j]-th identifier of its shard is identifier
    [w + j * W]; a process without worker info takes the whole list. *)
Lemma identifiers_shard_lookup {A} (l : list A) (w W : nat) :
  w < W ->
  (forall j, identifiers_shard l (Some (w, W)) !! j = l !! (w + j * W)) /\
  identifiers_shard l None = l.
Proof.
  intros Hw. split.
  - intros j. apply slice_from_lookup, Hw.
  - apply slice_from_1_0.
Qed.

Lemma identifiers_shard_lookup_witness :
  1 < 3 /\
  identifiers_shard ["a"; "b"; "c"; "d"; "e"] (Some (1, 3)) !! 1 =
    ["a"; "b"; "c"; "d"; "e"] !! (1 + 1 * 3).
Proof.
  split; [lia|].
  exact (proj1 (identifiers_shard_lookup ["a"; "b"; "c"; "d"; "e"] 1 3 ltac:(lia)) 1).
Defined.

(** *** The fetcher *)

Lemma fetch_one_three_not_value_error (prefix out : string) (store : ObjectStore)
    (d t r : string) (fs : Fs) :
  fetch_one prefix out store [d; t; r] fs <> Err ValueError.
Proof. rewrite fetch_one_three. repeat case_match; discriminate. Qed.



Lemma fetch_one_ok_sample (prefix out : string) (store : ObjectStore)
    (i : list string) (fs fs' : Fs) (smp : TextSample) :
  fetch_one prefix out store i fs = Ok (fs', smp) -> smp = expected_sample prefix store i.
Proof.
  destruct i as [|d [|t [|r [|x rest]]]];
    try (rewrite fetch_one_not_three by (simpl; lia); discriminate).
  rewrite fetch_one_three. unfold expected_sample, fetched_text.
  destruct (bool_decide _); [discriminate|]. destruct store as [objs|]; [|discriminate].
  destruct (path_exists _ _); [discriminate|]. destruct (objs !! _); [|discriminate].
  by intros [= _ <-].
Qed.

(** The fetch loop of [DownloadingIterable.__iter__] yields, in order, the
    samples of a prefix of its identifiers, each holding the text of that
    identifier's remote object.  It ends without an exception only after
    the last identifier; when it raises, the exception is the one
    [fetch_one] raises on the next identifier, from the file system the
    earlier downloads left. *)
Lemma fetch_all_spec (prefix out : string) (store : ObjectStore)
    (ids : list (list string)) (fs : Fs) :
  let '(ys, e, fs') := fetch_all prefix out store ids fs in
  ys = map (expected_sample prefix store) (take (length ys) ids) /\
  (e = None -> length ys = length ids) /\
  (forall e', e = Some e' ->
     exists i, ids !! length ys = Some i /\ fetch_one prefix out store i fs' = Err e').
Proof.
  revert fs. induction ids as [|i rest IH]; intros fs; cbn [fetch_all].
  - split; [done|]. split; [done|]. by intros ? ?.
  - destruct (fetch_one prefix out store i fs) as [[fs1 smp]|e1] eqn:Hi.
    + specialize (IH fs1). destruct (fetch_all prefix out store rest fs1) as [[ys e] fs''].
      destruct IH as (Hys & Hn & Hs). cbn [length take map]. split; [|split].
      * rewrite (fetch_one_ok_sample _ _ _ _ _ _ _ Hi). by rewrite <- Hys.
      * intros He. by rewrite Hn.
      * intros e' He. destruct (Hs e' He) as (j & Hj & Hf). by exists j.
    + cbn [length take map]. split; [done|]. split; [done|].
      intros e' [= <-]. by exists i.
Qed.

Lemma pjoin_abs (a b : string) : starts_with_slash b = true -> pjoin a b = b.
Proof. intros Hb. unfold pjoin. by rewrite Hb. Qed.

(** A ticker starting with ['/'] makes [os.path.join] drop the roots: the
    fetcher's outcome, the files it writes and the directories it makes are
    the same whatever the input prefix and the staging folder, and the
    remote object is [{ticker}/sec_{year}_txt.txt]. *)
Lemma fetch_one_absolute_ticker (prefix prefix' out out' : string)
    (store : ObjectStore) (d t r : string) (fs : Fs) :
  starts_with_slash t = true ->
  fetch_one prefix out store [d; t; r] fs = fetch_one prefix' out' store [d; t; r] fs /\
  remote_path prefix [d; t; r] = pjoin t ("sec_" +:+ hd "" (split_char "-" r) +:+ "_txt.txt").
Proof.
  intros Ht. split.
  - unfold fetch_one, pjoin3. by rewrite !(pjoin_abs _ t Ht).
  - unfold remote_path, pjoin3. by rewrite (pjoin_abs _ t Ht).
Qed.

Lemma fetch_one_absolute_ticker_witness :
  starts_with_slash "/etc" = true /\
  remote_path "filings/train" ["d1"; "/etc"; "2020-01-01"] = "/etc/sec_2020_txt.txt".
Proof.
  split; [reflexivity|].
  rewrite (proj2 (fetch_one_absolute_ticker "filings/train" "" "/tmp/x/train" "" (Some store_ex)
                   "d1" "/etc" "2020-01-01" {| fs_files := ∅; fs_dirs := ∅ |} eq_refl)).
  reflexivity.
Defined.

(** *** [generate_samples] *)

Section GenerateSamplesMore.
Context {V : Type}.

Lemma row_at_ok_inv (b : list (string * list V)) (idx : nat) (r : list (string * V)) :
  row_at b idx = Ok r -> Forall (fun kv => idx < length kv.2) b.
Proof.
  revert r. induction b as [|[k v] rest IH]; intros r Hr; [constructor|].
  simpl in Hr. destruct (v !! idx) as [x|] eqn:Hv; [|discriminate].
  destruct (row_at rest idx) as [r'|e] eqn:Hrest; [|discriminate].
  constructor; [|by eapply IH]. simpl. by apply lookup_lt_Some in Hv.
Qed.

Lemma row_at_err (b : list (string * list V)) (idx : nat) (e : exn) :
  row_at b idx = Err e -> e = IndexError /\ ~ Forall (fun kv => idx < length kv.2) b.
Proof.
  induction b as [|[k v] rest IH]; intros Hr; [discriminate|].
  simpl in Hr. destruct (v !! idx) as [x|] eqn:Hv.
  - destruct (row_at rest idx) as [r'|e'] eqn:Hrest; [discriminate|].
    injection Hr as <-. destruct (IH eq_refl) as [-> Hn]. split; [done|].
    intros Hall. apply Forall_cons in Hall as [_ Hall]. by apply Hn.
  - injection Hr as <-. split; [done|]. intros Hall.
    apply Forall_cons in Hall as [Hlt _]. simpl in Hlt.
    apply lookup_lt_is_Some_2 in Hlt. rewrite Hv in Hlt. by destruct Hlt.
Qed.

Lemma rows_loop_status (k : option Z) (b : list (string * list V)) (idxs : list nat) (n : Z) :
  match (rows_loop k b idxs n).2 with
  | LCont n' => n' = (n + Z.of_nat (length (rows_loop k b idxs n).1))%Z
  | LStop s => s = GReturn \/ s = GRaise IndexError
  end.
Proof.
  revert n. induction idxs as [|idx rest IH]; intros n; simpl; [lia|].
  destruct (match k with Some t => (n =? t)%Z | None => false end); [by left|].
  destruct (row_at b idx) as [s|e] eqn:Hr.
  - specialize (IH (n + 1)%Z).
    destruct (rows_loop k b rest (n + 1)) as [ys st]. simpl in *.
    destruct st; [lia|done].
  - right. f_equal. by apply row_at_err in Hr as [-> _].
Qed.

Lemma rows_loop_none_cont (b : list (string * list V)) (idxs : list nat) (n n' : Z) :
  (rows_loop None b idxs n).2 = LCont n' ->
  Forall (fun idx => Forall (fun kv => idx < length kv.2) b) idxs.
Proof.
  revert n. induction idxs as [|idx rest IH]; intros n Hs; [constructor|].
  simpl in Hs. destruct (row_at b idx) as [s|e] eqn:Hr; [|discriminate].
  destruct (rows_loop None b rest (n + 1)) as [ys st] eqn:Hrest. simpl in Hs.
  constructor; [by eapply row_at_ok_inv|]. apply (IH (n + 1)%Z). by rewrite Hrest.
Qed.

Lemma rows_loop_none_stop (b : list (string * list V)) (idxs : list nat) (n : Z) (s : gen_stop) :
  (rows_loop None b idxs n).2 = LStop s -> s = GRaise IndexError.
Proof.
  revert n. induction idxs as [|idx rest IH]; intros n Hs; [discriminate|].
  simpl in Hs. destruct (row_at b idx) as [r|e] eqn:Hr.
  - destruct (rows_loop None b rest (n + 1)) as [ys st] eqn:Hrest. simpl in Hs.
    apply (IH (n + 1)%Z). by rewrite Hrest.
  - injection Hs as <-. by apply row_at_err in Hr as [-> _].
Qed.

Lemma batch_ok_in_range (k0 : string) (col0 : list V) (rest : list (string * list V)) :
  batch_ok ((k0, col0) :: rest) <->
  Forall (fun idx => Forall (fun kv => idx < length kv.2) ((k0, col0) :: rest))
    (seq 0 (length col0)).
Proof.
  unfold batch_ok. rewrite !Forall_forall. split.
  - intros Hok idx Hidx%list_elem_of_In. apply in_seq in Hidx.
    rewrite Forall_forall. intros kv Hkv. specialize (Hok kv Hkv). lia.
  - intros Hall kv Hkv. destruct (length col0) as [|L] eqn:HL; [lia|].
    assert (Hin : L ∈ seq 0 (S L)) by (apply list_elem_of_In, in_seq; lia).
    specialize (Hall L Hin). rewrite Forall_forall in Hall.
    specialize (Hall kv Hkv). lia.
Qed.

(* The truncated inner loop behaves as the untruncated one, or stops early
   with a prefix of its samples. *)
Lemma rows_loop_trunc (t : Z) (b : list (string * list V)) (idxs : list nat) (n : Z) :
  rows_loop (Some t) b idxs n = rows_loop None b idxs n \/
  ((rows_loop (Some t) b idxs n).1 `prefix_of` (rows_loop None b idxs n).1 /\
   (rows_loop (Some t) b idxs n).2 = LStop GReturn).
Proof.
  revert n. induction idxs as [|idx rest IH]; intros n; [by left|].
  simpl. destruct (Z.eqb n t).
  - right. split; [apply prefix_nil|done].
  - destruct (row_at b idx) as [s|e]; [|by left].
    destruct (IH (n + 1)%Z) as [Heq|[Hp Hs]].
    + left. by rewrite Heq.
    + right. destruct (rows_loop (Some t) b rest (n + 1)) as [ys' st'].
      destruct (rows_loop None b rest (n + 1)) as [ys st]. simpl in *.
      split; [by apply prefix_cons|done].
Qed.

Lemma batches_loop_trunc_prefix (t : Z) (loader : list (list (string * list V))) (n : Z) :
  (batches_loop (Some t) loader n).1 `prefix_of` (batches_loop None loader n).1.
Proof.
  revert n. induction loader as [|b more IH]; intros n; [done|].
  destruct b as [|[k0 col0] rest]; [done|]. cbn [batches_loop].
  destruct (rows_loop_trunc t ((k0, col0) :: rest) (seq 0 (length col0)) n)
    as [Heq|[Hp Hs]].
  - rewrite Heq. destruct (rows_loop None _ _ n) as [ys [n'|s]]; [|done].
    specialize (IH n').
    destruct (batches_loop (Some t) more n') as [zs' st'].
    destruct (batches_loop None more n') as [zs st]. simpl in *.
    by apply prefix_app.
  - destruct (rows_loop (Some t) _ _ n) as [ys' st'].
    destruct (rows_loop None _ _ n) as [ys st]. simpl in *. subst st'.
    destruct st as [n'|s]; simpl.
    + destruct (batches_loop None more n'). simpl.
      by apply prefix_app_r.
    + done.
Qed.

Lemma rows_loop_trunc_length (t : Z) (b : list (string * list V)) (idxs : list nat) (n : Z) :
  (n <= t)%Z -> length (rows_loop (Some t) b idxs n).1 <= Z.to_nat (t - n).
Proof.
  revert n. induction idxs as [|idx rest IH]; intros n Hn; simpl; [lia|].
  destruct (Z.eqb_spec n t) as [->|Hne]; simpl; [lia|].
  destruct (row_at b idx) as [s|e]; simpl; [|lia].
  specialize (IH (n + 1)%Z ltac:(lia)).
  destruct (rows_loop (Some t) b rest (n + 1)) as [ys st]. simpl in *. lia.
Qed.

Lemma batches_loop_trunc_length (t : Z) (loader : list (list (string * list V))) (n : Z) :
  (n <= t)%Z -> length (batches_loop (Some t) loader n).1 <= Z.to_nat (t - n).
Proof.
  revert n. induction loader as [|b more IH]; intros n Hn; simpl; [lia|].
  destruct b as [|[k0 col0] rest]; simpl; [lia|].
  pose proof (rows_loop_trunc_length t ((k0, col0) :: rest) (seq 0 (length col0)) n Hn) as Hl.
  pose proof (rows_loop_status (Some t) ((k0, col0) :: rest) (seq 0 (length col0)) n) as Hst.
  destruct (rows_loop (Some t) _ _ n) as [ys [n'|s]]; simpl in *; [|lia].
  subst n'. specialize (IH (n + Z.of_nat (length ys))%Z ltac:(lia)).
  destruct (batches_loop (Some t) more _) as [zs st']. simpl in *.
  rewrite length_app. lia.
Qed.

(** Truncation only cuts the stream: for every loader and every
    [truncate_num_samples = t], the samples yielded are a prefix of those
    yielded without truncation, and at most [t] of them when [t >= 0]. *)
Lemma generate_samples_truncate_prefix (loader : list (list (string * list V))) (t : Z) :
  (generate_samples loader (Some t)).1 `prefix_of` (generate_samples loader None).1 /\
  ((0 <= t)%Z -> length (generate_samples loader (Some t)).1 <= Z.to_nat t).
Proof.
  split; [apply batches_loop_trunc_prefix|].
  intros Ht. unfold generate_samples.
  pose proof (batches_loop_trunc_length t loader 0 Ht) as H. by rewrite Z.sub_0_r in H.
Qed.

Lemma rows_loop_below (t : Z) (b : list (string * list V)) (idxs : list nat) (n : Z) :
  (t < n)%Z -> rows_loop (Some t) b idxs n = rows_loop None b idxs n.
Proof.
  revert n. induction idxs as [|idx rest IH]; intros n Hn; [done|].
  simpl. destruct (Z.eqb_spec n t) as [->|_]; [lia|].
  destruct (row_at b idx); [|done]. by rewrite IH by lia.
Qed.

Lemma batches_loop_below (t : Z) (loader : list (list (string * list V))) (n : Z) :
  (t < n)%Z -> batches_loop (Some t) loader n = batches_loop None loader n.
Proof.
  revert n. induction loader as [|b more IH]; intros n Hn; [done|].
  destruct b as [|[k0 col0] rest]; [done|]. cbn [batches_loop].
  rewrite rows_loop_below by done.
  pose proof (rows_loop_status None ((k0, col0) :: rest) (seq 0 (length col0)) n) as Hst.
  destruct (rows_loop None _ _ n) as [ys [n'|s]]; [|done]. simpl in Hst.
  by rewrite IH by lia.
Qed.

(** A negative [truncate_num_samples] never equals the sample counter,
    which starts at 0 and only grows: the generator behaves exactly as
    without truncation. *)
Lemma generate_samples_negative_truncation (loader : list (list (string * list V))) (t : Z) :
  (t < 0)%Z -> generate_samples loader (Some t) = generate_samples loader None.
Proof. intros Ht. by apply batches_loop_below. Qed.

End GenerateSamplesMore.

Lemma generate_samples_negative_truncation_witness :
  (-2 < 0)%Z /\
  generate_samples loader_ex (Some (-2)%Z) = generate_samples loader_ex None.
Proof.
  split; [lia|]. apply generate_samples_negative_truncation. lia.
Defined.

(** *** The specification of [generate_samples] *)

Section GenerateSamplesSpec.
Context {V : Type} `{!Inhabited V}.

(** Claim C10 (as amended). For a loader whose batches each have at least
    one key and columns of one length, [generate_samples] yields the samples
    of the loader batch by batch and index by index, each with the batch's
    keys and the values at its index, and then returns normally.  With
    [truncate_num_samples] [None] it yields all of them; with a
    non-negative [k] it stops after [k] of them, yielding exactly
    [min(k, total)]; with a negative [k], which the counter never equals,
    it yields all of them. *)
Theorem generate_samples_spec (loader : list (list (string * list V))) (k : option Z) :
  Forall wf_batch loader ->
  generate_samples loader k =
    (match k with
     | None => all_samples loader
     | Some t =>
         if (0 <=? t)%Z then take (Z.to_nat t) (all_samples loader) else all_samples loader
     end, GReturn) /\
  length (generate_samples loader k).1 =
    match k with
    | None => length (all_samples loader)
    | Some t =>
        if (0 <=? t)%Z then Nat.min (Z.to_nat t) (length (all_samples loader))
        else length (all_samples loader)
    end.
Proof.
  intros Hall. unfold generate_samples.
  destruct k as [t|].
  - destruct (Z.leb_spec 0 t) as [Ht|Ht].
    + rewrite batches_loop_some by (done || lia). rewrite Z.sub_0_r.
      split; [done|]. simpl. by rewrite length_take.
    + rewrite batches_loop_below by lia. by rewrite batches_loop_none by done.
  - rewrite batches_loop_none by done. done.
Qed.

End GenerateSamplesSpec.

Lemma generate_samples_spec_witness :
  Forall wf_batch loader_ex /\
  generate_samples loader_ex (Some 4%Z) =
    (if (0 <=? 4)%Z then take (Z.to_nat 4) (all_samples loader_ex) else all_samples loader_ex,
     GReturn) /\
  length (generate_samples loader_ex (Some 4%Z)).1 =
    (if (0 <=? 4)%Z then Nat.min (Z.to_nat 4) (length (all_samples loader_ex))
     else length (all_samples loader_ex)).
Proof.
  assert (Hwf : Forall wf_batch loader_ex) by (repeat constructor).
  split; [exact Hwf|].
  exact (generate_samples_spec loader_ex (Some 4%Z) Hwf).
Defined.

(** Counterexample to claim C10 as stated: with [truncate_num_samples = -1]
    the counter never equals it, so the one sample of the loader is yielded,
    while [min(-1, 1) = -1]. *)
Lemma generate_samples_negative_counterexample :
  (generate_samples [[("tokens", [7%Z])]] (Some (-1)%Z)).1 = [[("tokens", 7%Z)]] /\
  Z.of_nat (length (generate_samples [[("tokens", [7%Z])]] (Some (-1)%Z)).1)
    <> Z.min (-1) (Z.of_nat (length (all_samples [[("tokens", [7%Z])]]))).
Proof. split; [reflexivity|]. vm_compute. discriminate. Qed.

Section GenerateSamplesRaise.
Context {V : Type} `{!Inhabited V}.

Lemma batches_loop_status (k : option Z) (loader : list (list (string * list V))) (n : Z) :
  (batches_loop k loader n).2 = GReturn \/ (batches_loop k loader n).2 = GRaise IndexError.
Proof.
  revert n. induction loader as [|b more IH]; intros n; [by left|].
  destruct b as [|[k0 col0] rest]; [by right|]. cbn [batches_loop].
  pose proof (rows_loop_status k ((k0, col0) :: rest) (seq 0 (length col0)) n) as Hst.
  destruct (rows_loop k _ _ n) as [ys [n'|s]]; simpl in Hst.
  - specialize (IH n'). destruct (batches_loop k more n') as [zs st]. exact IH.
  - destruct Hst as [->| ->]; [by left|by right].
Qed.

Lemma batches_loop_none_ok (loader : list (list (string * list V))) (n : Z) :
  Forall batch_ok loader -> batches_loop None loader n = (all_samples loader, GReturn).
Proof.
  revert n. induction loader as [|b more IH]; intros n Hall; [done|].
  apply Forall_cons in Hall as [Hb Hmore].
  destruct b as [|[k0 col0] rest]; [done|]. cbn [batches_loop].
  rewrite rows_loop_none by (by apply batch_ok_in_range).
  cbn [fst snd]. rewrite IH by done. reflexivity.
Qed.

Lemma batches_loop_none_bad (loader : list (list (string * list V))) (n : Z) :
  ~ Forall batch_ok loader -> (batches_loop None loader n).2 = GRaise IndexError.
Proof.
  revert n. induction loader as [|b more IH]; intros n Hn; [by destruct Hn|].
  destruct b as [|[k0 col0] rest]; [done|]. cbn [batches_loop].
  destruct (rows_loop None ((k0, col0) :: rest) (seq 0 (length col0)) n)
    as [ys [n'|s]] eqn:Hr.
  - assert (Hb : batch_ok ((k0, col0) :: rest)).
    { apply batch_ok_in_range. apply (rows_loop_none_cont _ _ n n'). by rewrite Hr. }
    specialize (IH n').
    destruct (batches_loop None more n') as [zs st]. simpl in *.
    apply IH. intros Hmore. apply Hn. by constructor.
  - simpl. apply (rows_loop_none_stop ((k0, col0) :: rest) (seq 0 (length col0)) n).
    by rewrite Hr.
Qed.

(** Over the batches a loader delivers before it stops without raising,
    [generate_samples] itself raises no exception but [IndexError].  Without
    truncation it returns normally exactly when every batch has a key and
    no column shorter than the first; it then yields, batch by batch, one
    sample per index of the first column, with every key's value at that
    index (values of longer columns past that length are never yielded).
    Otherwise it raises [IndexError]. *)
Lemma generate_samples_index_error (loader : list (list (string * list V))) (k : option Z) :
  ((generate_samples loader k).2 = GReturn \/
   (generate_samples loader k).2 = GRaise IndexError) /\
  (Forall batch_ok loader -> generate_samples loader None = (all_samples loader, GReturn)) /\
  (~ Forall batch_ok loader -> (generate_samples loader None).2 = GRaise IndexError).
Proof.
  split; [apply batches_loop_status|split].
  - apply batches_loop_none_ok.
  - apply batches_loop_none_bad.
Qed.

End GenerateSamplesRaise.

(** *** [parse_args] *)




(** *** [main] *)

Section MainProofs.
Context {V : Type} `{!Inhabited V}.
Variable load_split : string -> list DocRecord.
Variable tmp_dir : string -> string.
Variable run_loader : DownloadingIterable -> list (list (string * list V)) * option exn.





End MainProofs.



(** *** From records to the fetcher *)

(** A record whose fields survive the ['|||'] round trip. *)
Lemma split_identifier_clean (r : DocRecord) :
  ~ contains_sep (docID r) -> ~ contains_sep (hd "" (tickers r)) ->
  ~ contains_sep (reportDate r) ->
  ~ ends_with_bar (docID r) -> ~ ends_with_bar (hd "" (tickers r)) ->
  split_bars (identifier_from_first_ticker r) = [docID r; hd "" (tickers r); reportDate r].
Proof.
  rewrite !not_contains_sep, !not_ends_with_bar. intros Hd Ht Hr Hed Het.
  unfold split_bars, identifier_from_first_ticker.
  rewrite split_join_field by done. rewrite split_join_field by done.
  rewrite split_no_sep by done. by rewrite !str_app_nil_l.
Qed.

(** When every record's docID, first ticker and reportDate are free of
    ['|||'] and neither the docID nor the first ticker ends in ['|'], the
    iterable [main] builds from the resolved identifiers holds the
    three-part identifiers [[docID, tickers[0], reportDate]] of the records,
    each once; the fetcher's three-way destructuring then raises no
    [ValueError] on any of them. *)
Lemma resolved_identifiers_three_parts (recs : list DocRecord) (ids : list string)
    (prefix out : string) (store : ObjectStore) :
  resolve_identifiers recs = Ok ids ->
  Forall (fun r => ~ contains_sep (docID r) /\ ~ contains_sep (hd "" (tickers r)) /\
                   ~ contains_sep (reportDate r) /\
                   ~ ends_with_bar (docID r) /\ ~ ends_with_bar (hd "" (tickers r))) recs ->
  NoDup (identifiers (mk_downloading_iterable ids prefix out store)) /\
  (forall i, i ∈ identifiers (mk_downloading_iterable ids prefix out store) <->
     exists r, r ∈ recs /\ i = [docID r; hd "" (tickers r); reportDate r]) /\
  (forall i fs, i ∈ identifiers (mk_downloading_iterable ids prefix out store) ->
     fetch_one prefix out store i fs <> Err ValueError).
Proof.
  intros Hres Hclean.
  destruct (resolve_identifiers_ok_facts recs ids Hres) as (_ & _ & Hnd & _ & _ & Hmem).
  rewrite Forall_forall in Hclean.
  assert (Hsplit : forall x, x ∈ ids -> exists r, r ∈ recs /\
            x = identifier_from_first_ticker r /\
            split_bars x = [docID r; hd "" (tickers r); reportDate r]).
  { intros x Hx. apply Hmem in Hx as (r & Hr & ->). exists r. split; [done|]. split; [done|].
    destruct (Hclean r Hr) as (H1 & H2 & H3 & H4 & H5). by apply split_identifier_clean. }
  assert (Hmem' : forall i, i ∈ identifiers (mk_downloading_iterable ids prefix out store) <->
     exists r, r ∈ recs /\ i = [docID r; hd "" (tickers r); reportDate r]).
  { intros i. cbn [identifiers mk_downloading_iterable].
    change (map split_bars ids) with (split_bars <$> ids). rewrite list_elem_of_fmap. split.
    - intros (x & -> & Hx). destruct (Hsplit x Hx) as (r & Hr & _ & Hs). by exists r.
    - intros (r & Hr & ->). exists (identifier_from_first_ticker r). split.
      + destruct (Hclean r Hr) as (H1 & H2 & H3 & H4 & H5). symmetry. by apply split_identifier_clean.
      + apply Hmem. by exists r. }
  split; [|split; [exact Hmem'|]].
  - cbn [identifiers mk_downloading_iterable].
    change (map split_bars ids) with (split_bars <$> ids).
    apply NoDup_fmap_2_strong; [|done].
    intros x y Hx Hy Hxy.
    destruct (Hsplit x Hx) as (r1 & _ & -> & Hs1). destruct (Hsplit y Hy) as (r2 & _ & -> & Hs2).
    rewrite Hs1, Hs2 in Hxy. injection Hxy as E1 E2 E3.
    unfold identifier_from_first_ticker. by rewrite E1, E2, E3.
  - intros i fs Hi. apply Hmem' in Hi as (r & _ & ->).
    apply fetch_one_three_not_value_error.
Qed.

Lemma resolved_identifiers_three_parts_witness :
  let recs := [ {| docID := "d1"; tickers := ["AAPL"]; reportDate := "2020-01-01" |};
                {| docID := "d1"; tickers := ["AAPL"]; reportDate := "2020-01-01" |} ] in
  resolve_identifiers recs = Ok ["d1|||AAPL|||2020-01-01"] /\
  NoDup (identifiers (mk_downloading_iterable ["d1|||AAPL|||2020-01-01"]
                        "filings/train" "/tmp/x/train" (Some store_ex))).
Proof.
  intros recs.
  assert (H : resolve_identifiers recs = Ok ["d1|||AAPL|||2020-01-01"]) by reflexivity.
  split; [exact H|].
  refine (proj1 (resolved_identifiers_three_parts recs _ "filings/train" "/tmp/x/train"
                   (Some store_ex) H _)).
  repeat constructor; cbn [docID tickers reportDate hd];
    first [ apply not_contains_sep | apply not_ends_with_bar ]; reflexivity.
Defined.
